(** * BWB_MAC: the geometry and numerics engine

    A shallow embedding of the Mean-Aerodynamic-Chord calculator
    ([math/MAC.js]), of the spline fitter ([math/Spline.js]) and of the
    inverse mapping used by the workflow ([ui/Workflow.js]).

    Numbers.  A JavaScript number is modelled as a real number: [+], [-],
    [*], [/], [Math.abs], [Math.max], [Math.min], [Math.cos], [Math.sin]
    are the exact operations of [R], and comparisons are decided through
    [Decision] instances.  Rounding, [NaN] and the two infinities are
    outside the model; the one place where the source uses [Infinity]
    (the running minimum of the locator) is modelled with an [option].
    Every division the modelled paths perform has a nonzero divisor
    (guarded by the source or proved below), so the value Rocq gives to
    a division by zero is never relied upon.

    Arrays.  A JavaScript array or [Float64Array] is a [list]; [a[i]] is
    the total lookup [a !!! i] and [a[i] = v] is [<[i:=v]> a].  All the
    indices the modelled code uses are in range. *)

From Stdlib Require Import Reals Lra Lia List Sorted Permutation.
From stdpp Require Import base decidable list.
Import ListNotations.

Open Scope R_scope.

(** ** Deciding comparisons of numbers *)

#[global] Instance R_inhabited : Inhabited R := populate 0.
#[global] Instance R_eq_dec : EqDecision R := Req_dec_T.
#[global] Instance Rlt_decision (x y : R) : Decision (x < y) := Rlt_dec x y.
#[global] Instance Rle_decision (x y : R) : Decision (x <= y) := Rle_dec x y.
#[global] Instance Rgt_decision (x y : R) : Decision (x > y) := Rlt_dec y x.
#[global] Instance Rge_decision (x y : R) : Decision (x >= y) := Rge_dec x y.

(** ** Points *)

Record Point : Type := mkPoint { px : R; py : R }.

#[global] Instance Point_inhabited : Inhabited Point := populate (mkPoint 0 0).

Record SymmetryLine : Type := mkSymmetryLine { p1 : Point; p2 : Point }.

(** One cubic Bezier piece [{p1, cp1, cp2, p2}]. *)
Record BezierSeg : Type := mkBezierSeg
  { bp1 : Point; cp1 : Point; cp2 : Point; bp2 : Point }.

#[global] Instance BezierSeg_inhabited : Inhabited BezierSeg :=
  populate (mkBezierSeg inhabitant inhabitant inhabitant inhabitant).

(** [Math.atan2 y x] on real arguments. *)
Definition atan2 (y x : R) : R :=
  if decide (0 < x) then atan (y / x)
  else if decide (x < 0) then
    (if decide (0 <= y) then atan (y / x) + PI else atan (y / x) - PI)
  else if decide (0 < y) then PI / 2
  else if decide (y < 0) then - (PI / 2)
  else 0.

(** ** math/Spline.js *)

Module Spline.

(** Forward elimination of [thomasAlgorithm]: the loop
    [for (let i = 1; i < n; i++)] over the pair [(cPrime, dPrime)]. *)
Definition forward_step (a b c d : list R) (n : nat)
    (st : list R * list R) (i : nat) : list R * list R :=
  let '(cPrime, dPrime) := st in
  let demon := b !!! i - a !!! i * cPrime !!! (i - 1)%nat in
  let cPrime' :=
    if decide (i < n - 1)%nat then <[i := c !!! i / demon]> cPrime
    else cPrime in
  let dPrime' :=
    <[i := (d !!! i - a !!! i * dPrime !!! (i - 1)%nat) / demon]> dPrime in
  (cPrime', dPrime').

Definition forward (a b c d : list R) : list R * list R :=
  let n := length d in
  let cPrime := replicate n 0 in
  let dPrime := replicate n 0 in
  let cPrime := <[0%nat := c !!! 0%nat / b !!! 0%nat]> cPrime in
  let dPrime := <[0%nat := d !!! 0%nat / b !!! 0%nat]> dPrime in
  fold_left (forward_step a b c d n) (seq 1 (n - 1)) (cPrime, dPrime).

(** Back substitution: [x[n-1] = dPrime[n-1]], then the loop
    [for (let i = n - 2; i >= 0; i--)]. *)
Definition backward_step (cPrime dPrime : list R) (x : list R) (i : nat)
    : list R :=
  <[i := dPrime !!! i - cPrime !!! i * x !!! (i + 1)%nat]> x.

Definition backward (n : nat) (cPrime dPrime : list R) : list R :=
  let x := replicate n 0 in
  let x := <[(n - 1)%nat := dPrime !!! (n - 1)%nat]> x in
  fold_left (backward_step cPrime dPrime) (rev (seq 0 (n - 1))) x.

Definition thomasAlgorithm (a b c d : list R) : list R :=
  let n := length d in
  let '(cPrime, dPrime) := forward a b c d in
  backward n cPrime dPrime.

(** The three diagonals built by [solve] for [n + 1] knots. *)
Definition diag_a (n : nat) : list R := <[n := 1]> (replicate (n + 1) 1).
Definition diag_b (n : nat) : list R :=
  <[n := 2]> (<[0%nat := 2]> (replicate (n + 1) 4)).
Definition diag_c (n : nat) : list R := <[0%nat := 1]> (replicate (n + 1) 1).

(** The right-hand side of one axis; [coord] is [px] or [py]. *)
Definition rhs (coord : Point -> R) (points : list Point) (n : nat) : list R :=
  let r := replicate (n + 1) 0 in
  let r := <[0%nat := 3 * (coord (points !!! 1%nat) - coord (points !!! 0%nat))]> r in
  let r :=
    fold_left
      (fun r i =>
         <[i := 3 * (coord (points !!! (i + 1)%nat)
                     - coord (points !!! (i - 1)%nat))]> r)
      (seq 1 (n - 1)) r in
  <[n := 3 * (coord (points !!! n) - coord (points !!! (n - 1)%nat))]> r.

(** The tangents [Dx] and [Dy] that [solve] obtains from the solver. *)
Definition tangents (coord : Point -> R) (points : list Point) : list R :=
  let n := (length points - 1)%nat in
  thomasAlgorithm (diag_a n) (diag_b n) (diag_c n) (rhs coord points n).

Definition isSolvable (points : list Point) : bool :=
  bool_decide (2 <= length points)%nat.

(** One turn of the loop that pushes the Bezier pieces. *)
Definition push_piece (points : list Point) (Dx Dy : list R)
    (acc : list BezierSeg) (i : nat) : list BezierSeg :=
  let p1 := points !!! i in
  let p2 := points !!! (i + 1)%nat in
  let cp1 := mkPoint (px p1 + Dx !!! i / 3) (py p1 + Dy !!! i / 3) in
  let cp2 := mkPoint (px p2 - Dx !!! (i + 1)%nat / 3)
                     (py p2 - Dy !!! (i + 1)%nat / 3) in
  acc ++ [mkBezierSeg p1 cp1 cp2 p2].

(** [solve]: the value it leaves in [this.bezierPoints]; [old] is the
    value the field had before the call. *)
Definition solve (points : list Point) (old : list BezierSeg)
    : list BezierSeg :=
  if isSolvable points then
    let n := (length points - 1)%nat in
    let Dx := tangents px points in
    let Dy := tangents py points in
    fold_left (push_piece points Dx Dy) (seq 0 n) []
  else old.

(** The object built by [new CubicSpline(points)]. *)
Record CubicSpline : Type := mkCubicSpline
  { points : list Point; bezierPoints : list BezierSeg }.

Definition new_CubicSpline (pts : list Point) : CubicSpline :=
  mkCubicSpline pts
    (if decide (1 < length pts)%nat then solve pts [] else []).

End Spline.

(** ** math/MAC.js *)

Module MACCalculator.

(** A drawn segment as [sampleShape] inspects it: the [type] tag, the
    clicked [points] and, on a spline object, its [bezierPoints]
    ([None] when the property is absent). *)
Inductive ShapeType : Type := LINE | SPLINE.

#[global] Instance ShapeType_eq_dec : EqDecision ShapeType.
Proof. solve_decision. Defined.

Record Shape : Type := mkShape
  { shape_type : ShapeType;
    shape_points : list Point;
    shape_bezierPoints : option (list BezierSeg) }.

(** [createShapeFromPoints] of the interaction layer, for each sub-mode. *)
Definition createShapeFromPoints (subMode : ShapeType) (points : list Point)
    : Shape :=
  match subMode with
  | LINE => mkShape LINE points None
  | SPLINE =>
      let spline := Spline.new_CubicSpline points in
      mkShape SPLINE (Spline.points spline) (Some (Spline.bezierPoints spline))
  end.

(** The three failures raised with [throw new Error(...)]. *)
Inductive CalcError : Type :=
  | InsufficientPoints   (* "Insufficient points" *)
  | ZeroSpan             (* "Zero span detected" *)
  | ZeroArea.            (* "Zero area detected" *)

Record MACResult : Type := mkMACResult
  { MAC : R;
    Area : R;
    MAC_pixels : R;
    Y_mac_pixels : R;
    X_le_mac_pixels : R;
    scaleFactor : R;
    rotationAngle : R;
    origin : Point }.

(** What a call does: it returns, it throws, or the model's loop budget
    ran out before the source's loop ended. *)
Inductive Outcome : Type :=
  | Return (r : MACResult)
  | Throw (e : CalcError)
  | OutOfFuel.

(** The closure [transform] that [calculate] builds from the symmetry line. *)
Definition transform (symmetryLine : SymmetryLine) (p : Point) : Point :=
  let symDx := px (p2 symmetryLine) - px (p1 symmetryLine) in
  let symDy := py (p2 symmetryLine) - py (p1 symmetryLine) in
  let angle := atan2 symDy symDx in
  let tx := px p - px (p1 symmetryLine) in
  let ty := py p - py (p1 symmetryLine) in
  let rx := tx * cos (- angle) - ty * sin (- angle) in
  let ry := tx * sin (- angle) + ty * cos (- angle) in
  mkPoint rx ry.

Definition getBezierPoint (seg : BezierSeg) (t : R) : Point :=
  let mt := 1 - t in
  let mt2 := mt * mt in
  let mt3 := mt * mt * mt in
  let t2 := t * t in
  let t3 := t * t * t in
  mkPoint
    (mt3 * px (bp1 seg) + 3 * mt2 * t * px (cp1 seg)
     + 3 * mt * t2 * px (cp2 seg) + t3 * px (bp2 seg))
    (mt3 * py (bp1 seg) + 3 * mt2 * t * py (cp1 seg)
     + 3 * mt * t2 * py (cp2 seg) + t3 * py (bp2 seg)).

Definition sampleShape (shape : Shape) (transform : Point -> Point)
    : list Point :=
  if decide (shape_type shape = LINE) then
    map transform (shape_points shape)
  else
    match shape_bezierPoints shape with
    | Some bezierPoints =>
        flat_map
          (fun seg =>
             map (fun i => transform (getBezierPoint seg (INR i / 10)))
                 (seq 0 11))
          bezierPoints
    | None => map transform (shape_points shape)
    end.

(** [Array.prototype.sort] with the comparator [(a, b) => a.y - b.y]:
    a stable sort, ascending in [y]. *)
Fixpoint insert_by_y (p : Point) (l : list Point) : list Point :=
  match l with
  | [] => [p]
  | q :: l' =>
      if decide (py p - py q <= 0) then p :: q :: l'
      else q :: insert_by_y p l'
  end.

Definition sort_by_y (l : list Point) : list Point :=
  fold_right insert_by_y [] l.

Definition sampleSegments (segments : list Shape)
    (transform : Point -> Point) : list Point :=
  let allPoints := flat_map (fun shape => sampleShape shape transform) segments in
  sort_by_y allPoints.

(** The scan [for (let i = 0; i < samples.length - 1; i++)] of
    [interpolateX]: the first adjacent pair that brackets [y], if any. *)
Fixpoint interpolate_scan (samples : list Point) (y : R) : option R :=
  match samples with
  | s0 :: (s1 :: _) as rest =>
      if decide (py s0 <= y /\ py s1 >= y) then
        let dy := py s1 - py s0 in
        if decide (dy = 0) then Some (px s0)
        else
          let t := (y - py s0) / dy in
          Some (px s0 + t * (px s1 - px s0))
      else interpolate_scan rest y
  | _ => None
  end.

(** [interpolateX].  On an empty array the source fails on [samples[0].y];
    [calculate] calls it on arrays of at least two samples only. *)
Definition interpolateX (samples : list Point) (y : R) : R :=
  let first := samples !!! 0%nat in
  let last := samples !!! (length samples - 1)%nat in
  if decide (y < py first \/ y > py last) then
    if decide (Rabs (y - py first) < 1e-9) then px first
    else if decide (Rabs (y - py last) < 1e-9) then px last
    else 0
  else
    match interpolate_scan samples y with
    | Some x => x
    | None => px last
    end.

Definition getMinY (samples : list Point) : R :=
  if decide (length samples = 0%nat) then 0 else py (samples !!! 0%nat).

Definition getMaxY (samples : list Point) : R :=
  if decide (length samples = 0%nat) then 0
  else py (samples !!! (length samples - 1)%nat).

Definition getMaxDist (samples : list Point) : R :=
  if decide (length samples = 0%nat) then 0
  else fold_left (fun max p => Rmax max (Rabs (py p))) samples 0.

(** The loop [for (let y = minY; y <= maxY; y += dy) body], with a
    budget of guard evaluations. *)
Fixpoint for_y {St : Type} (fuel : nat) (maxY dy : R)
    (body : St -> R -> St) (y : R) (st : St) : option St :=
  match fuel with
  | O => None
  | S fuel' =>
      if decide (y <= maxY) then
        for_y fuel' maxY dy body (y + dy) (body st y)
      else Some st
  end.

(** The accumulators of the integration loop. *)
Record Sums : Type := mkSums
  { area : R; moment_y : R; integral_c_sq : R }.

Definition integrate_body (LE_samples TE_samples : list Point) (dy : R)
    (s : Sums) (y : R) : Sums :=
  let x_le := interpolateX LE_samples y in
  let x_te := interpolateX TE_samples y in
  let chord := Rabs (x_te - x_le) in
  let da := chord * dy in
  mkSums (area s + da)
         (moment_y s + Rabs y * da)
         (integral_c_sq s + (chord * chord) * dy).

Definition integrate (fuel : nat) (LE_samples TE_samples : list Point)
    (minY maxY dy : R) : option Sums :=
  for_y fuel maxY dy (integrate_body LE_samples TE_samples dy) minY
        (mkSums 0 0 0).

(** The state of the search loop; [minDiff = None] stands for the
    initial [Infinity]. *)
Record Best : Type := mkBest { minDiff : option R; visual_Y : R }.

Definition locate_body (LE_samples TE_samples : list Point) (MAC_pixels : R)
    (b : Best) (y : R) : Best :=
  let x_le := interpolateX LE_samples y in
  let x_te := interpolateX TE_samples y in
  let currentChord := Rabs (x_te - x_le) in
  let diff := Rabs (currentChord - MAC_pixels) in
  let smaller :=
    match minDiff b with
    | None => true
    | Some m => bool_decide (diff < m)
    end in
  if smaller then mkBest (Some diff) y else b.

Definition locate (fuel : nat) (LE_samples TE_samples : list Point)
    (minY maxY dy MAC_pixels Y_mac_pixels : R) : option Best :=
  for_y fuel maxY dy (locate_body LE_samples TE_samples MAC_pixels) minY
        (mkBest None Y_mac_pixels).

(** [calculate] from the bounds on: everything after the two calls of
    [sampleSegments]. *)
Definition calculate_samples (fuel : nat) (LE_samples TE_samples : list Point)
    (angle : R) (origin : Point) (realWingspan : R) : Outcome :=
  let minY := Rmax (getMinY LE_samples) (getMinY TE_samples) in
  let maxY := Rmin (getMaxY LE_samples) (getMaxY TE_samples) in
  if decide (length LE_samples < 2 \/ length TE_samples < 2)%nat then
    Throw InsufficientPoints
  else
    let dy := (maxY - minY) / 1000 in
    if decide (dy = 0) then Throw ZeroSpan
    else
      match integrate fuel LE_samples TE_samples minY maxY dy with
      | None => OutOfFuel
      | Some sums =>
          if decide (area sums = 0) then Throw ZeroArea
          else
            let MAC_pixels := integral_c_sq sums / area sums in
            let Y_mac_pixels := moment_y sums / area sums in
            match locate fuel LE_samples TE_samples minY maxY dy
                         MAC_pixels Y_mac_pixels with
            | None => OutOfFuel
            | Some best =>
                let visual_Y := visual_Y best in
                let X_le_mac_pixels := interpolateX LE_samples visual_Y in
                let maxDist :=
                  Rmax (getMaxDist LE_samples) (getMaxDist TE_samples) in
                let scaleFactor := (realWingspan / 2) / maxDist in
                let MAC_meters := MAC_pixels * scaleFactor in
                let Area_meters :=
                  area sums * (scaleFactor * scaleFactor)
                  * (if decide (minY * maxY < 0) then 1 else 2) in
                Return (mkMACResult MAC_meters Area_meters MAC_pixels
                          visual_Y X_le_mac_pixels scaleFactor angle origin)
          end
      end.

Definition calculate (fuel : nat) (leadingSegments trailingSegments : list Shape)
    (symmetryLine : SymmetryLine) (realWingspan : R) : Outcome :=
  let symDx := px (p2 symmetryLine) - px (p1 symmetryLine) in
  let symDy := py (p2 symmetryLine) - py (p1 symmetryLine) in
  let angle := atan2 symDy symDx in
  let LE_samples := sampleSegments leadingSegments (transform symmetryLine) in
  let TE_samples := sampleSegments trailingSegments (transform symmetryLine) in
  calculate_samples fuel LE_samples TE_samples angle (p1 symmetryLine)
                    realWingspan.

End MACCalculator.

(** ** ui/Workflow.js *)

Module Workflow.

(** The closure [invRotate] of [performCalculation], reading
    [rotationAngle] and [origin] from the result. *)
Definition invRotate (result : MACCalculator.MACResult) (x y : R) : Point :=
  let realAngle := MACCalculator.rotationAngle result in
  let tx := x * cos realAngle - y * sin realAngle in
  let ty := x * sin realAngle + y * cos realAngle in
  mkPoint (tx + px (MACCalculator.origin result))
          (ty + py (MACCalculator.origin result)).

End Workflow.

(** ** canvas/CanvasManager.js *)

Module CanvasManager.

(** The viewport [this.transform = {x, y, k}]. *)
Record Viewport : Type := mkViewport { vx : R; vy : R; vk : R }.

(** The data and temporary state of the canvas manager (the image and
    the drawing context apart).  [macLine] is a pair of points
    [{p1, p2}] like the symmetry line. *)
Record Canvas : Type := mkCanvas
  { transform : Viewport;
    symmetryLine : option SymmetryLine;
    leadingEdgeSegments : list MACCalculator.Shape;
    trailingEdgeSegments : list MACCalculator.Shape;
    macLine : option SymmetryLine;
    activePoints : list Point;
    previewShape : option MACCalculator.Shape;
    cursor : Point;
    snapPoint : option Point }.

(** The state the constructor sets up. *)
Definition new_CanvasManager : Canvas :=
  mkCanvas (mkViewport 0 0 1) None [] [] None [] None (mkPoint 0 0) None.

Definition set_transform (v : Viewport) (c : Canvas) : Canvas :=
  mkCanvas v (symmetryLine c) (leadingEdgeSegments c)
    (trailingEdgeSegments c) (macLine c) (activePoints c) (previewShape c)
    (cursor c) (snapPoint c).

Definition set_symmetryLine (v : option SymmetryLine) (c : Canvas) : Canvas :=
  mkCanvas (transform c) v (leadingEdgeSegments c)
    (trailingEdgeSegments c) (macLine c) (activePoints c) (previewShape c)
    (cursor c) (snapPoint c).

Definition set_leadingEdgeSegments (v : list MACCalculator.Shape)
    (c : Canvas) : Canvas :=
  mkCanvas (transform c) (symmetryLine c) v
    (trailingEdgeSegments c) (macLine c) (activePoints c) (previewShape c)
    (cursor c) (snapPoint c).

Definition set_trailingEdgeSegments (v : list MACCalculator.Shape)
    (c : Canvas) : Canvas :=
  mkCanvas (transform c) (symmetryLine c) (leadingEdgeSegments c)
    v (macLine c) (activePoints c) (previewShape c)
    (cursor c) (snapPoint c).

Definition set_macLine (v : option SymmetryLine) (c : Canvas) : Canvas :=
  mkCanvas (transform c) (symmetryLine c) (leadingEdgeSegments c)
    (trailingEdgeSegments c) v (activePoints c) (previewShape c)
    (cursor c) (snapPoint c).

Definition set_activePoints (v : list Point) (c : Canvas) : Canvas :=
  mkCanvas (transform c) (symmetryLine c) (leadingEdgeSegments c)
    (trailingEdgeSegments c) (macLine c) v (previewShape c)
    (cursor c) (snapPoint c).

Definition set_previewShape (v : option MACCalculator.Shape)
    (c : Canvas) : Canvas :=
  mkCanvas (transform c) (symmetryLine c) (leadingEdgeSegments c)
    (trailingEdgeSegments c) (macLine c) (activePoints c) v
    (cursor c) (snapPoint c).

Definition set_cursor (v : Point) (c : Canvas) : Canvas :=
  mkCanvas (transform c) (symmetryLine c) (leadingEdgeSegments c)
    (trailingEdgeSegments c) (macLine c) (activePoints c) (previewShape c)
    v (snapPoint c).

Definition set_snapPoint (v : option Point) (c : Canvas) : Canvas :=
  mkCanvas (transform c) (symmetryLine c) (leadingEdgeSegments c)
    (trailingEdgeSegments c) (macLine c) (activePoints c) (previewShape c)
    (cursor c) v.

Definition worldToScreen (t : Viewport) (x y : R) : Point :=
  mkPoint (x * vk t + vx t) (y * vk t + vy t).

Definition screenToWorld (t : Viewport) (x y : R) : Point :=
  mkPoint ((x - vx t) / vk t) ((y - vy t) / vk t).

(** The viewport that the [onload] handler of [loadImage] installs for a
    canvas and an image of the given sizes. *)
Definition loadImage (canvas_width canvas_height img_width img_height : R)
    : Viewport :=
  let scaleX := canvas_width / img_width in
  let scaleY := canvas_height / img_height in
  let scale := Rmin scaleX scaleY * 0.8 in
  mkViewport ((canvas_width - img_width * scale) / 2)
             ((canvas_height - img_height * scale) / 2)
             scale.

End CanvasManager.

(** ** canvas/Interaction.js and ui/Workflow.js: the controllers *)

Module Controllers.
Import CanvasManager.

Inductive Mode : Type := IDLE | DRAW_SYMMETRY | DRAW_LEADING | DRAW_TRAILING.

#[global] Instance Mode_eq_dec : EqDecision Mode.
Proof. solve_decision. Defined.

(** [this.mode.startsWith('DRAW')]. *)
Definition startsWith_DRAW (m : Mode) : bool :=
  match m with
  | IDLE => false
  | _ => true
  end.

(** The interaction controller: its canvas manager and its own fields. *)
Record InteractionController : Type := mkInteractionController
  { cm : Canvas;
    mode : Mode;
    subMode : MACCalculator.ShapeType;
    isDragging : bool;
    lastMouse : Point }.

Definition new_InteractionController (c : Canvas) : InteractionController :=
  mkInteractionController c IDLE MACCalculator.SPLINE false (mkPoint 0 0).

Definition set_cm (c : Canvas) (ic : InteractionController)
    : InteractionController :=
  mkInteractionController c (mode ic) (subMode ic) (isDragging ic)
    (lastMouse ic).

Definition set_mode (m : Mode) (ic : InteractionController)
    : InteractionController :=
  mkInteractionController (cm ic) m (subMode ic) (isDragging ic)
    (lastMouse ic).

Definition set_subMode (s : MACCalculator.ShapeType)
    (ic : InteractionController) : InteractionController :=
  mkInteractionController (cm ic) (mode ic) s (isDragging ic) (lastMouse ic).

Definition set_isDragging (b : bool) (ic : InteractionController)
    : InteractionController :=
  mkInteractionController (cm ic) (mode ic) (subMode ic) b (lastMouse ic).

Definition set_lastMouse (p : Point) (ic : InteractionController)
    : InteractionController :=
  mkInteractionController (cm ic) (mode ic) (subMode ic) (isDragging ic) p.

Definition setMode (m : Mode) (ic : InteractionController)
    : InteractionController :=
  let ic := set_mode m ic in
  set_cm (set_previewShape None
            (set_snapPoint None (set_activePoints [] (cm ic)))) ic.

(** [createShapeFromPoints] with the controller's sub-mode. *)
Definition createShapeFromPoints (ic : InteractionController)
    (points : list Point) : MACCalculator.Shape :=
  MACCalculator.createShapeFromPoints (subMode ic) points.

(** [Math.hypot] of two numbers. *)
Definition hypot (a b : R) : R := sqrt (a * a + b * b).

(** The first and last point of a segment, when it has points. *)
Definition endpoints (s : MACCalculator.Shape) : list Point :=
  let points := MACCalculator.shape_points s in
  if decide (length points = 0%nat) then []
  else [points !!! 0%nat; points !!! (length points - 1)%nat].

(** The candidates that [handleSnapping] collects, in order. *)
Definition snap_candidates (ic : InteractionController) : list Point :=
  (match symmetryLine (cm ic) with
   | Some line =>
       if decide (mode ic <> DRAW_SYMMETRY) then [p1 line; p2 line] else []
   | None => []
   end)
  ++ flat_map endpoints (leadingEdgeSegments (cm ic))
  ++ flat_map endpoints (trailingEdgeSegments (cm ic))
  ++ (if decide (0 < length (activePoints (cm ic)))%nat
      then [activePoints (cm ic) !!! 0%nat] else []).

Definition handleSnapping (worldP : Point) (ic : InteractionController)
    : InteractionController :=
  let snapDist := 15 / vk (transform (cm ic)) in
  let foundSnap :=
    find (fun pt =>
            bool_decide (hypot (px pt - px worldP) (py pt - py worldP)
                         < snapDist))
         (snap_candidates ic) in
  set_cm (set_snapPoint foundSnap (cm ic)) ic.

(** The five steps of the workflow. *)
Inductive Step : Type :=
  | UPLOAD | SYMMETRY | LEADING_EDGE | TRAILING_EDGE | SCALING_RESULTS.

#[global] Instance Step_eq_dec : EqDecision Step.
Proof. solve_decision. Defined.

Definition steps : list Step :=
  [UPLOAD; SYMMETRY; LEADING_EDGE; TRAILING_EDGE; SCALING_RESULTS].

(** The workflow controller with the interaction controller it drives;
    the interaction controller reaches it back through [window.app]. *)
Record WorkflowController : Type := mkWorkflowController
  { ic : InteractionController;
    currentStepIndex : nat }.

Definition set_ic (i : InteractionController) (w : WorkflowController)
    : WorkflowController :=
  mkWorkflowController i (currentStepIndex w).

Definition set_currentStepIndex (n : nat) (w : WorkflowController)
    : WorkflowController :=
  mkWorkflowController (ic w) n.

Definition currentStep (w : WorkflowController) : option Step :=
  steps !! currentStepIndex w.

(** [enterStep]: the interaction state it resets and the mode it sets;
    the page elements it rewrites are not modelled. *)
Definition enterStep (index : nat) (w : WorkflowController)
    : WorkflowController :=
  let step := steps !! index in
  let i := ic w in
  let i := set_cm (set_previewShape None
                     (set_snapPoint None (set_activePoints [] (cm i)))) i in
  let i :=
    match step with
    | Some UPLOAD => setMode IDLE i
    | Some SYMMETRY => set_subMode MACCalculator.LINE (setMode DRAW_SYMMETRY i)
    | Some LEADING_EDGE =>
        set_subMode MACCalculator.SPLINE (setMode DRAW_LEADING i)
    | Some TRAILING_EDGE =>
        set_subMode MACCalculator.SPLINE (setMode DRAW_TRAILING i)
    | Some SCALING_RESULTS => setMode IDLE i
    | None => i
    end in
  set_ic i w.

Definition nextStep (w : WorkflowController) : WorkflowController :=
  if decide (currentStepIndex w < length steps - 1)%nat then
    let w := set_currentStepIndex (currentStepIndex w + 1) w in
    enterStep (currentStepIndex w) w
  else w.

Definition prevStep (w : WorkflowController) : WorkflowController :=
  if decide (0 < currentStepIndex w)%nat then
    let w := set_currentStepIndex (currentStepIndex w - 1) w in
    enterStep (currentStepIndex w) w
  else w.

(** The application as [main.js] builds it. *)
Definition new_WorkflowController : WorkflowController :=
  enterStep 0
    (mkWorkflowController (new_InteractionController new_CanvasManager) 0).

(** [performCalculation] for the wingspan [realWingspan]: the MAC line
    it stores on success; a missing geometry or a failed calculation
    only raises an alert.  [None] when the loop budget of the model of
    [calculate] ran out. *)
Definition performCalculation (fuel : nat) (realWingspan : R)
    (w : WorkflowController) : option WorkflowController :=
  let c := cm (ic w) in
  match symmetryLine c with
  | Some line =>
      if decide (length (leadingEdgeSegments c) = 0%nat
                 \/ length (trailingEdgeSegments c) = 0%nat) then Some w
      else
        match MACCalculator.calculate fuel (leadingEdgeSegments c)
                (trailingEdgeSegments c) line realWingspan with
        | MACCalculator.Return result =>
            let ry := MACCalculator.Y_mac_pixels result in
            let rx := MACCalculator.X_le_mac_pixels result in
            let pStart := Workflow.invRotate result rx ry in
            let pEnd :=
              Workflow.invRotate result
                (rx + MACCalculator.MAC_pixels result) ry in
            Some (set_ic (set_cm (set_macLine
                                    (Some (mkSymmetryLine pStart pEnd)) c)
                                 (ic w)) w)
        | MACCalculator.Throw _ => Some w
        | MACCalculator.OutOfFuel => None
        end
  | None => Some w
  end.

(** The closure [perform] of [promptScalingAndCalc] for the number [val]
    read from the wingspan field. *)
Definition perform (fuel : nat) (val : R) (w : WorkflowController)
    : option WorkflowController :=
  if decide (val > 0) then performCalculation fuel val w else Some w.

(** [finishStep]: the workflow controller is installed in [window.app]. *)
Definition finishStep (w : WorkflowController) : WorkflowController :=
  nextStep w.

Definition commitCurrentSegment (w : WorkflowController)
    : WorkflowController :=
  let i := ic w in
  let shape := createShapeFromPoints i (activePoints (cm i)) in
  match mode i with
  | DRAW_SYMMETRY => finishStep w
  | m =>
      let c :=
        match m with
        | DRAW_LEADING =>
            set_leadingEdgeSegments (leadingEdgeSegments (cm i) ++ [shape])
                                    (cm i)
        | DRAW_TRAILING =>
            set_trailingEdgeSegments (trailingEdgeSegments (cm i) ++ [shape])
                                     (cm i)
        | _ => cm i
        end in
      set_ic (set_cm (set_previewShape None (set_activePoints [] c)) i) w
  end.

(** [onMouseDown] for the button [button], the Alt key state and the
    position [pos] that [getMousePos] reads from the event. *)
Definition onMouseDown (button : nat) (altKey : bool) (pos : Point)
    (w : WorkflowController) : WorkflowController :=
  let i := ic w in
  if (button =? 1)%nat || ((button =? 0)%nat && altKey) then
    set_ic (set_lastMouse pos (set_isDragging true i)) w
  else if (button =? 0)%nat then
    let worldP := screenToWorld (transform (cm i)) (px pos) (py pos) in
    let finalP :=
      match snapPoint (cm i) with
      | Some s => s
      | None => worldP
      end in
    if startsWith_DRAW (mode i) then
      if decide (mode i = DRAW_SYMMETRY) then
        let points := activePoints (cm i) ++ [finalP] in
        let line :=
          mkSymmetryLine (points !!! 0%nat)
            (match points !! 1%nat with
             | Some q => q
             | None => finalP
             end) in
        let c := set_symmetryLine (Some line)
                   (set_activePoints points (cm i)) in
        let w := set_ic (set_cm c i) w in
        if decide (length points = 2%nat) then commitCurrentSegment w else w
      else
        set_ic (set_cm (set_activePoints (activePoints (cm i) ++ [finalP])
                                         (cm i)) i) w
    else w
  else w.

(** [onMouseMove] for the position [p] that [getMousePos] reads. *)
Definition onMouseMove (p : Point) (w : WorkflowController)
    : WorkflowController :=
  let i := ic w in
  let i :=
    if isDragging i then
      let dx := px p - px (lastMouse i) in
      let dy := py p - py (lastMouse i) in
      let t := transform (cm i) in
      set_lastMouse p
        (set_cm (set_transform (mkViewport (vx t + dx) (vy t + dy) (vk t))
                               (cm i)) i)
    else i in
  let worldP := screenToWorld (transform (cm i)) (px p) (py p) in
  let i := set_cm (set_cursor worldP (cm i)) i in
  let i := handleSnapping worldP i in
  let effectiveCursor :=
    match snapPoint (cm i) with
    | Some s => s
    | None => worldP
    end in
  let i :=
    if decide (mode i = DRAW_SYMMETRY
               /\ length (activePoints (cm i)) = 1%nat) then
      set_cm (set_symmetryLine
                (Some (mkSymmetryLine (activePoints (cm i) !!! 0%nat)
                                      effectiveCursor)) (cm i)) i
    else i in
  let i :=
    if decide (mode i = DRAW_LEADING \/ mode i = DRAW_TRAILING) then
      if decide (0 < length (activePoints (cm i)))%nat then
        let previewPoints := activePoints (cm i) ++ [effectiveCursor] in
        set_cm (set_previewShape (Some (createShapeFromPoints i previewPoints))
                                 (cm i)) i
      else set_cm (set_previewShape None (cm i)) i
    else i in
  set_ic i w.

Definition onMouseUp (w : WorkflowController) : WorkflowController :=
  set_ic (set_isDragging false (ic w)) w.

(** [onWheel] on the viewport, for the wheel delta and the position
    that [getMousePos] reads. *)
Definition zoom_at (deltaY : R) (mouse : Point) (t : Viewport) : Viewport :=
  let zoomIntensity := 0.1 in
  let wheel := if decide (deltaY < 0) then 1 else -1 in
  let zoom := exp (wheel * zoomIntensity) in
  let worldMouseBefore := screenToWorld t (px mouse) (py mouse) in
  let k := vk t * zoom in
  let newX := px mouse - px worldMouseBefore * k in
  let newY := py mouse - py worldMouseBefore * k in
  mkViewport newX newY k.

Definition onWheel (deltaY : R) (mouse : Point) (w : WorkflowController)
    : WorkflowController :=
  let i := ic w in
  set_ic (set_cm (set_transform (zoom_at deltaY mouse (transform (cm i)))
                                (cm i)) i) w.

(** The keys that [onKeyDown] tells apart. *)
Inductive Key : Type :=
  | KeySpace | KeyEnter | KeyEscape | KeyE | KeyZ | KeyOther.

(** The branch of [onKeyDown] for Ctrl-Z or Cmd-Z. *)
Definition undo (w : WorkflowController) : WorkflowController :=
  let i := ic w in
  let c := cm i in
  if decide (0 < length (activePoints c))%nat then
    set_ic (set_cm (set_activePoints (removelast (activePoints c)) c) i) w
  else
    match mode i with
    | DRAW_LEADING =>
        if decide (0 < length (leadingEdgeSegments c))%nat then
          set_ic (set_cm (set_leadingEdgeSegments
                            (removelast (leadingEdgeSegments c)) c) i) w
        else prevStep w
    | DRAW_TRAILING =>
        if decide (0 < length (trailingEdgeSegments c))%nat then
          set_ic (set_cm (set_trailingEdgeSegments
                            (removelast (trailingEdgeSegments c)) c) i) w
        else prevStep w
    | DRAW_SYMMETRY =>
        match symmetryLine c with
        | Some _ =>
            set_ic (set_cm (set_activePoints [] (set_symmetryLine None c)) i) w
        | None => prevStep w
        end
    | IDLE => prevStep w
    end.

(** [onKeyDown]; [onInput] says whether the event target is an input
    element. *)
Definition onKeyDown (onInput : bool) (key : Key) (metaKey ctrlKey : bool)
    (w : WorkflowController) : WorkflowController :=
  if onInput then w
  else
    let i := ic w in
    match key with
    | KeySpace =>
        if startsWith_DRAW (mode i)
           && bool_decide (1 < length (activePoints (cm i)))%nat
        then commitCurrentSegment w else w
    | KeyEnter => if startsWith_DRAW (mode i) then finishStep w else w
    | KeyEscape | KeyE =>
        set_ic (set_cm (set_previewShape None (set_activePoints [] (cm i))) i) w
    | KeyZ => if metaKey || ctrlKey then undo w else w
    | KeyOther => w
    end.

(** The tool selector of the edge steps. *)
Definition onToolChange (value : MACCalculator.ShapeType)
    (w : WorkflowController) : WorkflowController :=
  set_ic (set_subMode value (ic w)) w.

(** An image file has been read: the [then] of [loadImage] in the file
    input handler; the drop handler runs it in step [UPLOAD] only. *)
Definition onImageLoaded (canvas_width canvas_height img_width img_height : R)
    (w : WorkflowController) : WorkflowController :=
  let i := ic w in
  let t := loadImage canvas_width canvas_height img_width img_height in
  nextStep (set_ic (set_cm (set_transform t (cm i)) i) w).

Definition onFileChange (isImage : bool)
    (canvas_width canvas_height img_width img_height : R)
    (w : WorkflowController) : WorkflowController :=
  if isImage then
    onImageLoaded canvas_width canvas_height img_width img_height w
  else w.

Definition onDrop (isImage : bool)
    (canvas_width canvas_height img_width img_height : R)
    (w : WorkflowController) : WorkflowController :=
  if decide (currentStep w <> Some UPLOAD) then w
  else if isImage then
    onImageLoaded canvas_width canvas_height img_width img_height w
  else w.

(** The events of the page. *)
Inductive Event : Type :=
  | MouseDown (button : nat) (altKey : bool) (pos : Point)
  | MouseMove (p : Point)
  | MouseUp
  | Wheel (deltaY : R) (mouse : Point)
  | KeyDown (onInput : bool) (key : Key) (metaKey ctrlKey : bool)
  | ToolChange (value : MACCalculator.ShapeType)
  | FileChosen (isImage : bool)
               (canvas_width canvas_height img_width img_height : R)
  | Drop (isImage : bool)
         (canvas_width canvas_height img_width img_height : R)
  | Calculate (fuel : nat) (val : R).

(** One event; a calculation whose model ran out of budget leaves the
    state as it is. *)
Definition handle (e : Event) (w : WorkflowController) : WorkflowController :=
  match e with
  | MouseDown button altKey pos => onMouseDown button altKey pos w
  | MouseMove p => onMouseMove p w
  | MouseUp => onMouseUp w
  | Wheel deltaY mouse => onWheel deltaY mouse w
  | KeyDown onInput key metaKey ctrlKey =>
      onKeyDown onInput key metaKey ctrlKey w
  | ToolChange value => onToolChange value w
  | FileChosen isImage cw ch iw ih => onFileChange isImage cw ch iw ih w
  | Drop isImage cw ch iw ih => onDrop isImage cw ch iw ih w
  | Calculate fuel val =>
      match perform fuel val w with
      | Some w' => w'
      | None => w
      end
  end.

Definition run (events : list Event) (w : WorkflowController)
    : WorkflowController :=
  fold_left (fun w e => handle e w) events w.

End Controllers.

(** ** Vocabulary of the statements *)

Import MACCalculator.

(** The Bezier piece that [solve] pushes at index [i]. *)
Definition piece_at (points : list Point) (Dx Dy : list R) (i : nat)
    : BezierSeg :=
  mkBezierSeg
    (points !!! i)
    (mkPoint (px (points !!! i) + Dx !!! i / 3)
             (py (points !!! i) + Dy !!! i / 3))
    (mkPoint (px (points !!! (i + 1)%nat) - Dx !!! (i + 1)%nat / 3)
             (py (points !!! (i + 1)%nat) - Dy !!! (i + 1)%nat / 3))
    (points !!! (i + 1)%nat).

(** The adjacent pair at index [i] brackets [y]. *)
Definition brackets (samples : list Point) (y : R) (i : nat) : Prop :=
  py (samples !!! i) <= y /\ y <= py (samples !!! (i + 1)%nat).

(** The value [interpolateX] computes from the pair at index [i]. *)
Definition lerp_at (samples : list Point) (y : R) (i : nat) : R :=
  let s0 := samples !!! i in
  let s1 := samples !!! (i + 1)%nat in
  if decide (py s1 - py s0 = 0) then px s0
  else px s0 + (y - py s0) / (py s1 - py s0) * (px s1 - px s0).

(** The [k]-th sample position of the loop. *)
Definition grid (minY dy : R) (k : nat) : R := minY + INR k * dy.

(** Local chord at span position [y]. *)
Definition chord_at (LE_samples TE_samples : list Point) (y : R) : R :=
  Rabs (interpolateX TE_samples y - interpolateX LE_samples y).

(** Sums over an index range. *)
Fixpoint sum_range (f : nat -> R) (j n : nat) : R :=
  match n with
  | O => 0
  | S n' => f j + sum_range f (S j) n'
  end.

(** The three left-rectangle sums over the 1001 positions. *)
Definition area_sum (LE TE : list Point) (minY dy : R) : R :=
  sum_f_R0 (fun k => chord_at LE TE (grid minY dy k) * dy) 1000.

Definition moment_sum (LE TE : list Point) (minY dy : R) : R :=
  sum_f_R0 (fun k => Rabs (grid minY dy k)
                     * (chord_at LE TE (grid minY dy k) * dy)) 1000.

Definition chord_sq_sum (LE TE : list Point) (minY dy : R) : R :=
  sum_f_R0 (fun k => chord_at LE TE (grid minY dy k)
                     * chord_at LE TE (grid minY dy k) * dy) 1000.

(** The search has recorded a difference and its position is one of the
    1001 positions of the loop. *)
Definition located (minY dy : R) (b : Best) : Prop :=
  (exists d : R, minDiff b = Some d) /\
  (exists k : nat, (k <= 1000)%nat /\ visual_Y b = grid minY dy k).

(** The divisor of row [i] of the elimination, computed from the
    finished [cPrime]. *)
Definition pivot (a b cPrime : list R) (i : nat) : R :=
  b !!! i - a !!! i * cPrime !!! (i - 1)%nat.

(** What forward elimination has established for the rows [0 .. m]. *)
Definition forward_inv (a b c d : list R) (m : nat)
    (st : list R * list R) : Prop :=
  length (fst st) = length d /\ length (snd st) = length d /\
  fst st !!! 0%nat = c !!! 0%nat / b !!! 0%nat /\
  snd st !!! 0%nat = d !!! 0%nat / b !!! 0%nat /\
  forall i : nat, (1 <= i <= m)%nat ->
    snd st !!! i
      = (d !!! i - a !!! i * snd st !!! (i - 1)%nat) / pivot a b (fst st) i /\
    ((i < length d - 1)%nat ->
       fst st !!! i = c !!! i / pivot a b (fst st) i).

(** What back substitution has established for the rows [k .. n-1]. *)
Definition backward_inv (n : nat) (cPrime dPrime : list R) (k : nat)
    (x : list R) : Prop :=
  length x = n /\
  x !!! (n - 1)%nat = dPrime !!! (n - 1)%nat /\
  forall i : nat, (k <= i < n - 1)%nat ->
    x !!! i = dPrime !!! i - cPrime !!! i * x !!! (i + 1)%nat.

(** A profile sorted ascending by span. *)
Definition ascending (samples : list Point) : Prop :=
  StronglySorted (fun p q => py p <= py q) samples.

(** Squared distance of two points. *)
Definition dist2 (p q : Point) : R :=
  (px p - px q) * (px p - px q) + (py p - py q) * (py p - py q).


(** A Bezier piece with each of its four points mapped by [f]. *)
Definition map_piece (f : Point -> Point) (seg : BezierSeg) : BezierSeg :=
  mkBezierSeg (f (bp1 seg)) (f (cp1 seg)) (f (cp2 seg)) (f (bp2 seg)).

(** The canvas state of the application. *)
Definition canvas_of (w : Controllers.WorkflowController)
    : CanvasManager.Canvas :=
  Controllers.cm (Controllers.ic w).

(** The mode that [enterStep] sets for each step. *)
Definition mode_of_step (s : Controllers.Step) : Controllers.Mode :=
  match s with
  | Controllers.UPLOAD => Controllers.IDLE
  | Controllers.SYMMETRY => Controllers.DRAW_SYMMETRY
  | Controllers.LEADING_EDGE => Controllers.DRAW_LEADING
  | Controllers.TRAILING_EDGE => Controllers.DRAW_TRAILING
  | Controllers.SCALING_RESULTS => Controllers.IDLE
  end.

(** The step index names a step and the mode is the mode of that step. *)
Definition step_consistent (w : Controllers.WorkflowController) : Prop :=
  exists s : Controllers.Step,
    Controllers.steps !! Controllers.currentStepIndex w = Some s /\
    Controllers.mode (Controllers.ic w) = mode_of_step s.

(** A segment as [createShapeFromPoints] builds it from at least 2
    points. *)
Definition committed_ok (s : Shape) : Prop :=
  exists (subMode : ShapeType) (points : list Point),
    (2 <= length points)%nat /\
    s = MACCalculator.createShapeFromPoints subMode points.

Definition segments_ok (w : Controllers.WorkflowController) : Prop :=
  Forall committed_ok (CanvasManager.leadingEdgeSegments (canvas_of w)) /\
  Forall committed_ok (CanvasManager.trailingEdgeSegments (canvas_of w)).



(** ** Sample inputs *)

(** Leading edge [(0,0), (0,10)] and trailing edge [(2,0), (1,10)],
    already in the aligned frame. *)
Definition taper_LE : list Point := [mkPoint 0 0; mkPoint 0 10].
Definition taper_TE : list Point := [mkPoint 2 0; mkPoint 1 10].

(** Edges whose span intervals are disjoint. *)
Definition apart_LE : list Point := [mkPoint 0 0; mkPoint 0 1].
Definition apart_TE : list Point := [mkPoint 1 2; mkPoint 1 3].

(** A wing of constant chord 2 over the span interval from -10 to -5. *)
Definition port_LE : list Point := [mkPoint 0 (-10); mkPoint 0 (-5)].
Definition port_TE : list Point := [mkPoint 2 (-10); mkPoint 2 (-5)].

(** ** Proof tactics *)

(** Evaluate lookups in literal sample lists, leaving numerals alone. *)
Ltac eval_lookup :=
  cbn [px py lookup_total list_lookup_total length Nat.sub].

(** Reduce the projections of the interface state out of its setters. *)
Ltac ui_proj :=
  cbn [Controllers.ic Controllers.cm Controllers.mode Controllers.subMode
       Controllers.isDragging Controllers.lastMouse
       Controllers.currentStepIndex
       Controllers.set_ic Controllers.set_cm Controllers.set_mode
       Controllers.set_subMode Controllers.set_isDragging
       Controllers.set_lastMouse Controllers.set_currentStepIndex
       CanvasManager.transform CanvasManager.symmetryLine
       CanvasManager.leadingEdgeSegments CanvasManager.trailingEdgeSegments
       CanvasManager.macLine CanvasManager.activePoints
       CanvasManager.previewShape CanvasManager.cursor
       CanvasManager.snapPoint
       CanvasManager.set_transform CanvasManager.set_symmetryLine
       CanvasManager.set_leadingEdgeSegments
       CanvasManager.set_trailingEdgeSegments CanvasManager.set_macLine
       CanvasManager.set_activePoints CanvasManager.set_previewShape
       CanvasManager.set_cursor CanvasManager.set_snapPoint].

(** * Properties *)

(** ** Coordinate transform and its inverse *)


Lemma sin_cos_one (a : R) : sin a * sin a + cos a * cos a = 1.
Proof. exact (sin2_cos2 a). Qed.


Lemma calculate_eq (fuel : nat) (leading trailing : list Shape)
    (sym : SymmetryLine) (w : R) :
  calculate fuel leading trailing sym w =
    calculate_samples fuel
      (sampleSegments leading (transform sym))
      (sampleSegments trailing (transform sym))
      (atan2 (py (p2 sym) - py (p1 sym)) (px (p2 sym) - px (p1 sym)))
      (p1 sym) w.
Proof. reflexivity. Qed.

(** [calculate] samples the two edges in the aligned frame and hands
    over to the code modelled by [calculate_samples]; a result it
    returns carries the rotation angle and the origin of that frame. *)
Lemma calculate_frame (fuel : nat) (leading trailing : list Shape)
    (sym : SymmetryLine) (w : R) (r : MACResult) :
  calculate fuel leading trailing sym w = Return r ->
  rotationAngle r =
    atan2 (py (p2 sym) - py (p1 sym)) (px (p2 sym) - px (p1 sym)) /\
  origin r = p1 sym.
Proof.
  unfold calculate, calculate_samples. intros H.
  repeat match type of H with
         | context [decide ?P] => destruct (decide P)
         | context [integrate ?f ?l ?t ?a ?b ?c] =>
             destruct (integrate f l t a b c)
         | context [locate ?f ?l ?t ?a ?b ?c ?m ?y] =>
             destruct (locate f l t a b c m y)
         end; try discriminate;
  injection H as <-; split; reflexivity.
Qed.



(** ** Sampling one segment *)

Lemma new_CubicSpline_degenerate (pts : list Point) :
  (length pts < 2)%nat -> Spline.bezierPoints (Spline.new_CubicSpline pts) = [].
Proof.
  intros H. unfold Spline.new_CubicSpline. cbn [Spline.bezierPoints].
  destruct (decide (1 < length pts)%nat) as [Hlt | _]; [lia | reflexivity].
Qed.

(** C9 as stated fails: a polyline of one point gives one sample. *)
Lemma C9_counterexample :
  let shape := createShapeFromPoints LINE [mkPoint 1 2] in
  (length (shape_points shape) < 2)%nat /\
  sampleShape shape (fun p => p) = [mkPoint 1 2] /\
  sampleShape shape (fun p => p) <> [].
Proof.
  cbn. repeat split; [lia | discriminate].
Qed.

(** C9, amended.  For every list [points] of fewer than 2 points: the
    spline segment made of them has no Bezier pieces and sampling it
    produces no samples; the polyline segment made of them contributes
    its vertices, transformed (none for an empty polyline, one for a
    polyline of a single point). *)
Theorem C9_sampleShape_degenerate (points : list Point)
    (tr : Point -> Point) :
  (length points < 2)%nat ->
  sampleShape (createShapeFromPoints SPLINE points) tr = [] /\
  sampleShape (createShapeFromPoints LINE points) tr = map tr points /\
  length (sampleShape (createShapeFromPoints LINE points) tr) = length points.
Proof.
  intros H. split; [| split].
  - unfold createShapeFromPoints, sampleShape.
    cbn [shape_type shape_bezierPoints shape_points].
    destruct (decide (SPLINE = LINE)) as [Heq | _]; [discriminate |].
    rewrite new_CubicSpline_degenerate by exact H. reflexivity.
  - reflexivity.
  - cbn. apply length_map.
Qed.

Lemma C9_sampleShape_degenerate_witness :
  sampleShape (createShapeFromPoints SPLINE [mkPoint 1 2]) (fun p => p) = [] /\
  sampleShape (createShapeFromPoints LINE [mkPoint 1 2]) (fun p => p)
    = map (fun p => p) [mkPoint 1 2] /\
  length (sampleShape (createShapeFromPoints LINE [mkPoint 1 2]) (fun p => p))
    = length [mkPoint 1 2].
Proof.
  apply (C9_sampleShape_degenerate [mkPoint 1 2] (fun p => p)).
  simpl. lia.
Defined.

(** ** Chord interpolation *)

Lemma last_index_cons (s : Point) (l : list Point) :
  l <> [] ->
  (s :: l) !!! (length (s :: l) - 1)%nat = l !!! (length l - 1)%nat.
Proof.
  intros H. destruct l as [| q l']; [congruence |].
  cbn [length]. replace (S (S (length l')) - 1)%nat with (S (length l')) by lia.
  replace (S (length l') - 1)%nat with (length l') by lia.
  reflexivity.
Qed.

Lemma interpolate_scan_first_bracket (samples : list Point) (y : R) :
  (2 <= length samples)%nat ->
  py (samples !!! 0%nat) <= y ->
  y <= py (samples !!! (length samples - 1)%nat) ->
  exists i : nat,
    (i + 1 < length samples)%nat /\
    brackets samples y i /\
    (forall j : nat, (j < i)%nat -> ~ brackets samples y j) /\
    interpolate_scan samples y = Some (lerp_at samples y i).
Proof.
  induction samples as [| s0 rest IH]; intros Hlen Hlo Hhi.
  - cbn in Hlen. lia.
  - destruct rest as [| s1 rest'].
    + cbn in Hlen. lia.
    + cbn [interpolate_scan].
      destruct (decide (py s0 <= y /\ py s1 >= y)) as [Hb | Hnb].
      * exists 0%nat. split; [cbn [length]; lia |].
        split; [split; cbn; lra |].
        split; [intros j Hj; lia |].
        unfold lerp_at. cbn [Nat.add].
        change ((s0 :: s1 :: rest') !!! 0%nat) with s0.
        change ((s0 :: s1 :: rest') !!! 1%nat) with s1.
        destruct (decide (py s1 - py s0 = 0)); reflexivity.
      * change ((s0 :: s1 :: rest') !!! 0%nat) with s0 in Hlo.
        assert (Hs1 : py s1 < y) by (apply Rnot_le_lt; intros Hc; apply Hnb; lra).
        rewrite last_index_cons in Hhi by discriminate.
        destruct rest' as [| s2 rest''].
        { cbn in Hhi. lra. }
        destruct IH as (i & Hi & Hbr & Hfirst & Hscan).
        { cbn [length]. lia. }
        { cbn. lra. }
        { exact Hhi. }
        exists (S i). split; [cbn [length] in *; lia |].
        split; [exact Hbr |].
        split.
        { intros j Hj [Hj1 Hj2]. destruct j as [| j'].
          - cbn in Hj1, Hj2. lra.
          - apply (Hfirst j'); [lia |]. split; assumption. }
        exact Hscan.
Qed.

Lemma interpolateX_in_range (samples : list Point) (y : R) :
  py (samples !!! 0%nat) <= y ->
  y <= py (samples !!! (length samples - 1)%nat) ->
  interpolateX samples y =
    match interpolate_scan samples y with
    | Some x => x
    | None => px (samples !!! (length samples - 1)%nat)
    end.
Proof.
  intros Hlo Hhi. unfold interpolateX.
  destruct (decide (y < py (samples !!! 0%nat)
                    \/ y > py (samples !!! (length samples - 1)%nat)))
    as [[Hc | Hc] | _]; [lra | lra | reflexivity].
Qed.

Lemma interpolateX_out_of_range (samples : list Point) (y : R) :
  y < py (samples !!! 0%nat)
  \/ y > py (samples !!! (length samples - 1)%nat) ->
  interpolateX samples y =
    if decide (Rabs (y - py (samples !!! 0%nat)) < 1e-9)
    then px (samples !!! 0%nat)
    else if decide (Rabs (y - py (samples !!! (length samples - 1)%nat)) < 1e-9)
         then px (samples !!! (length samples - 1)%nat)
         else 0.
Proof.
  intros Hout. unfold interpolateX.
  destruct (decide (y < py (samples !!! 0%nat)
                    \/ y > py (samples !!! (length samples - 1)%nat)))
    as [_ | Hn]; [reflexivity | contradiction].
Qed.

(** C4 as stated fails on a profile of one sample: the query at its span
    value is in range, no adjacent pair exists, and the sample's chord
    value comes back from the final [return]. *)
Lemma C4_counterexample :
  let samples := [mkPoint 5 1] in
  py (samples !!! 0%nat) <= 1 <= py (samples !!! (length samples - 1)%nat) /\
  interpolateX samples 1 = 5 /\
  ~ (exists i : nat, (i + 1 < length samples)%nat /\ brackets samples 1 i).
Proof.
  cbn zeta. split; [| split].
  - cbn. lra.
  - rewrite interpolateX_in_range by (cbn; lra). reflexivity.
  - intros (i & Hi & _). cbn in Hi. lia.
Qed.

(** C4, amended.  For every nonempty profile and query [y], with [first]
    and [last] its first and last samples:
    - if the profile has at least 2 samples and [first.y <= y <= last.y],
      the result is computed from the first adjacent pair that brackets
      [y]: the left sample's chord value when the pair has zero
      span-delta, the linear interpolation otherwise;
    - if the profile has one sample and [y] is its span value, the result
      is that sample's chord value;
    - if [y < first.y] or [y > last.y], the result is [first.x] when
      [|y - first.y| < 1e-9], else [last.x] when [|y - last.y| < 1e-9],
      else [0].
    Sortedness of the profile is not needed. *)
Theorem C4_interpolateX (samples : list Point) (y : R) :
  samples <> [] ->
  let first := samples !!! 0%nat in
  let last := samples !!! (length samples - 1)%nat in
  ((2 <= length samples)%nat -> py first <= y <= py last ->
     exists i : nat,
       (i + 1 < length samples)%nat /\
       brackets samples y i /\
       (forall j : nat, (j < i)%nat -> ~ brackets samples y j) /\
       interpolateX samples y = lerp_at samples y i) /\
  (length samples = 1%nat -> y = py first ->
     interpolateX samples y = px first) /\
  (y < py first \/ y > py last ->
     (Rabs (y - py first) < 1e-9 -> interpolateX samples y = px first) /\
     (~ Rabs (y - py first) < 1e-9 -> Rabs (y - py last) < 1e-9 ->
        interpolateX samples y = px last) /\
     (~ Rabs (y - py first) < 1e-9 -> ~ Rabs (y - py last) < 1e-9 ->
        interpolateX samples y = 0)).
Proof.
  intros Hne first last. split; [| split].
  - intros Hlen [Hlo Hhi].
    destruct (interpolate_scan_first_bracket samples y Hlen Hlo Hhi)
      as (i & Hi & Hbr & Hfirst & Hscan).
    exists i. repeat (split; [assumption |]).
    rewrite interpolateX_in_range by assumption.
    rewrite Hscan. reflexivity.
  - intros Hlen Hy.
    destruct samples as [| s [| s' rest]]; cbn in Hlen; try lia.
    subst first last y.
    rewrite interpolateX_in_range by (cbn; lra). reflexivity.
  - intros Hout. rewrite (interpolateX_out_of_range samples y Hout).
    fold first last.
    destruct (decide (Rabs (y - py first) < 1e-9)) as [H1 | H1];
      [| destruct (decide (Rabs (y - py last) < 1e-9)) as [H2 | H2]];
      repeat split; intros; try reflexivity; contradiction.
Qed.

Lemma C4_interpolateX_witness :
  (exists i : nat,
     (i + 1 < length taper_TE)%nat /\
     brackets taper_TE 5 i /\
     (forall j : nat, (j < i)%nat -> ~ brackets taper_TE 5 j) /\
     interpolateX taper_TE 5 = lerp_at taper_TE 5 i) /\
  interpolateX [mkPoint 5 1] 1 = 5 /\
  interpolateX taper_TE 20 = 0.
Proof.
  split; [| split].
  - refine (proj1 (C4_interpolateX taper_TE 5 _) _ _).
    + discriminate.
    + cbn. lia.
    + cbn. lra.
  - refine (proj1 (proj2 (C4_interpolateX [mkPoint 5 1] 1 _)) _ _).
    + discriminate.
    + reflexivity.
    + reflexivity.
  - refine (proj2 (proj2 (proj2
              (proj2 (C4_interpolateX taper_TE 20 _)) _)) _ _).
    + discriminate.
    + right. unfold taper_TE. eval_lookup. lra.
    + unfold taper_TE. eval_lookup. rewrite Rabs_right; lra.
    + unfold taper_TE. eval_lookup. rewrite Rabs_right; lra.
Defined.

(** ** The span loop *)

Lemma grid_0 (minY dy : R) : grid minY dy 0 = minY.
Proof. unfold grid. cbn [INR]. ring. Qed.

Lemma grid_S (minY dy : R) (k : nat) :
  grid minY dy k + dy = grid minY dy (S k).
Proof. unfold grid. rewrite S_INR. ring. Qed.

Lemma grid_last (minY maxY : R) :
  grid minY ((maxY - minY) / 1000) 1000 = maxY.
Proof.
  unfold grid. replace (INR 1000) with 1000.
  - field.
  - change 1000%nat with (Z.to_nat 1000). rewrite INR_IZR_INZ.
    rewrite Z2Nat.id by lia. reflexivity.
Qed.

Lemma INR_1000 : INR 1000 = 1000.
Proof.
  change 1000%nat with (Z.to_nat 1000). rewrite INR_IZR_INZ.
  rewrite Z2Nat.id by lia. reflexivity.
Qed.

Section ForY.
Context {St : Type} (body : St -> R -> St).
Variables minY maxY dy : R.

(** With a positive step the loop visits the 1001 positions
    [grid 0 .. grid 1000] in order and then stops. *)
Lemma for_y_from (Hdy : 0 < dy) (Hmax : maxY = grid minY dy 1000) :
  forall (n j : nat) (st : St) (fuel : nat),
    (j + n = 1001)%nat -> (n < fuel)%nat ->
    for_y fuel maxY dy body (grid minY dy j) st =
      Some (fold_left (fun s k => body s (grid minY dy k)) (seq j n) st).
Proof.
  induction n as [| n IH]; intros j st fuel Hj Hfuel.
  - destruct fuel as [| fuel]; [lia |]. cbn [for_y seq fold_left].
    destruct (decide (grid minY dy j <= maxY)) as [Hle | _]; [| reflexivity].
    exfalso. subst maxY. unfold grid in Hle.
    assert (Hj' : j = 1001%nat) by lia. subst j.
    rewrite S_INR in Hle. nra.
  - destruct fuel as [| fuel]; [lia |]. cbn [for_y seq fold_left].
    destruct (decide (grid minY dy j <= maxY)) as [_ | Hgt].
    + rewrite grid_S. apply IH; lia.
    + exfalso. apply Hgt. subst maxY. unfold grid.
      assert (Hle : INR j <= INR 1000) by (apply le_INR; lia).
      nra.
Qed.

Lemma for_y_positive_step (Hdy : 0 < dy) (Hmax : maxY = grid minY dy 1000)
    (st : St) (fuel : nat) :
  (1002 <= fuel)%nat ->
  for_y fuel maxY dy body minY st =
    Some (fold_left (fun s k => body s (grid minY dy k)) (seq 0 1001) st).
Proof.
  intros Hfuel. rewrite <- (grid_0 minY dy) at 1.
  apply for_y_from; [assumption | assumption | lia | lia].
Qed.

(** When the bounds are crossed the body never runs. *)
Lemma for_y_crossed (Hcross : maxY < minY) (st : St) (fuel : nat) :
  (1 <= fuel)%nat -> for_y fuel maxY dy body minY st = Some st.
Proof.
  intros Hfuel. destruct fuel as [| fuel]; [lia |]. cbn [for_y].
  destruct (decide (minY <= maxY)) as [Hle | _]; [lra | reflexivity].
Qed.
End ForY.

Lemma sum_range_snoc (f : nat -> R) (n j : nat) :
  sum_range f j (S n) = sum_range f j n + f (j + n)%nat.
Proof.
  revert j. induction n as [| n IH]; intros j.
  - cbn [sum_range]. replace (j + 0)%nat with j by lia. ring.
  - change (sum_range f j (S (S n))) with (f j + sum_range f (S j) (S n)).
    rewrite IH. cbn [sum_range].
    replace (S j + n)%nat with (j + S n)%nat by lia. ring.
Qed.

Lemma sum_range_sum_f_R0 (f : nat -> R) (N : nat) :
  sum_range f 0 (S N) = sum_f_R0 f N.
Proof.
  induction N as [| N IH].
  - cbn. ring.
  - rewrite sum_range_snoc, IH. reflexivity.
Qed.

Lemma sum_f_R0_first_pos (f : nat -> R) (N : nat) :
  (forall k, 0 <= f k) -> 0 < f 0%nat -> 0 < sum_f_R0 f N.
Proof.
  intros Hnn H0. induction N as [| N IH]; cbn [sum_f_R0].
  - exact H0.
  - specialize (Hnn (S N)). lra.
Qed.


(** The accumulators after the positions [j .. j + n - 1]. *)
Lemma integrate_fold (LE TE : list Point) (minY dy : R) :
  forall (n j : nat) (s : Sums),
    fold_left (fun s k => integrate_body LE TE dy s (grid minY dy k))
              (seq j n) s =
    mkSums
      (area s
       + sum_range (fun k => chord_at LE TE (grid minY dy k) * dy) j n)
      (moment_y s
       + sum_range (fun k => Rabs (grid minY dy k)
                             * (chord_at LE TE (grid minY dy k) * dy)) j n)
      (integral_c_sq s
       + sum_range (fun k => chord_at LE TE (grid minY dy k)
                             * chord_at LE TE (grid minY dy k) * dy) j n).
Proof.
  induction n as [| n IH]; intros j s.
  - cbn [seq fold_left sum_range]. destruct s as [a m q]. cbn [area moment_y integral_c_sq].
    f_equal; ring.
  - cbn [seq fold_left sum_range]. rewrite IH.
    unfold integrate_body, chord_at. cbn [area moment_y integral_c_sq].
    f_equal; ring.
Qed.

Lemma integrate_positive_step (LE TE : list Point) (minY maxY : R)
    (fuel : nat) :
  minY < maxY -> (1002 <= fuel)%nat ->
  let dy := (maxY - minY) / 1000 in
  integrate fuel LE TE minY maxY dy =
    Some (mkSums (area_sum LE TE minY dy) (moment_sum LE TE minY dy)
                 (chord_sq_sum LE TE minY dy)).
Proof.
  intros Hlt Hfuel dy. unfold integrate.
  rewrite (for_y_positive_step _ minY maxY dy); try assumption.
  - rewrite integrate_fold. cbn [area moment_y integral_c_sq].
    rewrite !sum_range_sum_f_R0.
    unfold area_sum, moment_sum, chord_sq_sum. f_equal. f_equal; ring.
  - unfold dy. lra.
  - unfold dy. symmetry. apply grid_last.
Qed.

Lemma integrate_crossed (LE TE : list Point) (minY maxY dy : R) (fuel : nat) :
  maxY < minY -> (1 <= fuel)%nat ->
  integrate fuel LE TE minY maxY dy = Some (mkSums 0 0 0).
Proof.
  intros Hlt Hfuel. unfold integrate. apply for_y_crossed; assumption.
Qed.

(** ** The search for the reporting position *)

Lemma locate_body_located (LE TE : list Point) (mac minY dy : R)
    (b : Best) (k : nat) :
  (k <= 1000)%nat ->
  minDiff b = None \/ located minY dy b ->
  located minY dy (locate_body LE TE mac b (grid minY dy k)).
Proof.
  intros Hk Hb. unfold locate_body.
  destruct (minDiff b) as [m |] eqn:Hm.
  - destruct Hb as [Hnone | Hloc]; [discriminate |].
    destruct (bool_decide _).
    + split; cbn [minDiff visual_Y]; eauto.
    + exact Hloc.
  - split; cbn [minDiff visual_Y]; eauto.
Qed.

Lemma locate_fold_located (LE TE : list Point) (mac minY dy : R) :
  forall (n j : nat) (b : Best),
    (j + n <= 1001)%nat ->
    located minY dy b ->
    located minY dy
      (fold_left (fun b k => locate_body LE TE mac b (grid minY dy k))
                 (seq j n) b).
Proof.
  induction n as [| n IH]; intros j b Hj Hb.
  - exact Hb.
  - cbn [seq fold_left]. apply IH; [lia |].
    apply locate_body_located; [lia | right; exact Hb].
Qed.

Lemma locate_fold_started (LE TE : list Point) (mac minY dy seed : R)
    (n : nat) :
  (n <= 1000)%nat ->
  located minY dy
    (fold_left (fun b k => locate_body LE TE mac b (grid minY dy k))
               (seq 0 (S n)) (mkBest None seed)).
Proof.
  intros Hn. rewrite <- cons_seq. cbn [fold_left].
  apply locate_fold_located; [lia |].
  apply locate_body_located; [lia | left; reflexivity].
Qed.

Lemma locate_positive_step (LE TE : list Point) (minY maxY mac seed : R)
    (fuel : nat) :
  minY < maxY -> (1002 <= fuel)%nat ->
  let dy := (maxY - minY) / 1000 in
  exists best : Best,
    locate fuel LE TE minY maxY dy mac seed = Some best /\
    located minY dy best.
Proof.
  intros Hlt Hfuel dy. unfold locate.
  rewrite (for_y_positive_step _ minY maxY dy); try assumption.
  - eexists. split; [reflexivity |].
    apply (locate_fold_started LE TE mac minY dy seed 1000). apply le_n.
  - unfold dy. lra.
  - unfold dy. symmetry. apply grid_last.
Qed.

Lemma located_in_span (minY maxY : R) (b : Best) :
  minY < maxY ->
  located minY ((maxY - minY) / 1000) b ->
  minY <= visual_Y b <= maxY.
Proof.
  intros Hlt (_ & k & Hk & Hv). rewrite Hv. unfold grid.
  assert (H0 : 0 <= INR k) by apply pos_INR.
  assert (H1 : INR k <= INR 1000) by (apply le_INR; exact Hk).
  rewrite INR_1000 in H1. split; nra.
Qed.

(** ** The entry point on two sampled profiles *)

Lemma getMinY_first (samples : list Point) :
  samples <> [] -> getMinY samples = py (samples !!! 0%nat).
Proof.
  intros H. unfold getMinY.
  destruct (decide (length samples = 0%nat)) as [H0 | _]; [| reflexivity].
  destruct samples; [congruence | discriminate].
Qed.

Lemma getMaxY_last (samples : list Point) :
  samples <> [] ->
  getMaxY samples = py (samples !!! (length samples - 1)%nat).
Proof.
  intros H. unfold getMaxY.
  destruct (decide (length samples = 0%nat)) as [H0 | _]; [| reflexivity].
  destruct samples; [congruence | discriminate].
Qed.



(** Past the two guards, the outcome in terms of the two loops. *)
Lemma calculate_samples_loops (fuel : nat) (LE TE : list Point)
    (angle : R) (o : Point) (w : R) :
  (2 <= length LE)%nat -> (2 <= length TE)%nat ->
  let minY := Rmax (getMinY LE) (getMinY TE) in
  let maxY := Rmin (getMaxY LE) (getMaxY TE) in
  let dy := (maxY - minY) / 1000 in
  maxY - minY <> 0 ->
  forall sums : Sums,
    integrate fuel LE TE minY maxY dy = Some sums ->
    (area sums = 0 ->
       calculate_samples fuel LE TE angle o w = Throw ZeroArea) /\
    (area sums <> 0 ->
       forall best : Best,
         locate fuel LE TE minY maxY dy
                (integral_c_sq sums / area sums)
                (moment_y sums / area sums) = Some best ->
         let scale :=
           (w / 2) / Rmax (getMaxDist LE) (getMaxDist TE) in
         calculate_samples fuel LE TE angle o w =
           Return (mkMACResult
                     (integral_c_sq sums / area sums * scale)
                     (area sums * (scale * scale)
                      * (if decide (minY * maxY < 0) then 1 else 2))
                     (integral_c_sq sums / area sums)
                     (visual_Y best)
                     (interpolateX LE (visual_Y best))
                     scale angle o)).
Proof.
  intros HLE HTE minY maxY dy Hspan sums Hint.
  unfold calculate_samples.
  destruct (decide (length LE < 2 \/ length TE < 2)%nat) as [[H | H] | _];
    [lia | lia |].
  fold minY maxY dy.
  destruct (decide (dy = 0)) as [Hdy | _].
  { exfalso. apply Hspan. unfold dy in Hdy. lra. }
  rewrite Hint. split.
  - intros Ha. destruct (decide (area sums = 0)) as [_ | Hn];
      [reflexivity | contradiction].
  - intros Ha best Hloc. cbv zeta.
    destruct (decide (area sums = 0)) as [H0 | _]; [contradiction |].
    rewrite Hloc. reflexivity.
Qed.

Lemma calculate_samples_returns (fuel : nat) (LE TE : list Point)
    (angle : R) (o : Point) (w : R) :
  (2 <= length LE)%nat -> (2 <= length TE)%nat ->
  let minY := Rmax (getMinY LE) (getMinY TE) in
  let maxY := Rmin (getMaxY LE) (getMaxY TE) in
  let dy := (maxY - minY) / 1000 in
  minY < maxY -> (1002 <= fuel)%nat ->
  let A := area_sum LE TE minY dy in
  let M := moment_sum LE TE minY dy in
  let Q := chord_sq_sum LE TE minY dy in
  A <> 0 ->
  exists best : Best,
    locate fuel LE TE minY maxY dy (Q / A) (M / A) = Some best /\
    located minY dy best /\
    let scale := (w / 2) / Rmax (getMaxDist LE) (getMaxDist TE) in
    calculate_samples fuel LE TE angle o w =
      Return (mkMACResult (Q / A * scale)
                (A * (scale * scale)
                 * (if decide (minY * maxY < 0) then 1 else 2))
                (Q / A) (visual_Y best) (interpolateX LE (visual_Y best))
                scale angle o).
Proof.
  intros HLE HTE minY maxY dy Hlt Hfuel A M Q HA.
  destruct (locate_positive_step LE TE minY maxY (Q / A) (M / A) fuel
              Hlt Hfuel) as (best & Hloc & Hgrid).
  exists best. split; [exact Hloc |]. split; [exact Hgrid |].
  assert (Hint := integrate_positive_step LE TE minY maxY fuel Hlt Hfuel).
  cbv zeta in Hint. fold dy A M Q in Hint.
  assert (Hspan : maxY - minY <> 0) by lra.
  destruct (calculate_samples_loops fuel LE TE angle o w HLE HTE Hspan
              (mkSums A M Q) Hint) as [_ Hret].
  cbn [area moment_y integral_c_sq] in Hret.
  exact (Hret HA best Hloc).
Qed.

Lemma calculate_samples_crossed (fuel : nat) (LE TE : list Point)
    (angle : R) (o : Point) (w : R) :
  (2 <= length LE)%nat -> (2 <= length TE)%nat ->
  Rmin (getMaxY LE) (getMaxY TE) < Rmax (getMinY LE) (getMinY TE) ->
  (1 <= fuel)%nat ->
  calculate_samples fuel LE TE angle o w = Throw ZeroArea.
Proof.
  intros HLE HTE Hcross Hfuel.
  assert (Hspan : Rmin (getMaxY LE) (getMaxY TE)
                  - Rmax (getMinY LE) (getMinY TE) <> 0) by lra.
  destruct (calculate_samples_loops fuel LE TE angle o w HLE HTE Hspan
              (mkSums 0 0 0)) as [Hzero _].
  - apply integrate_crossed; assumption.
  - apply Hzero. reflexivity.
Qed.

(** ** The largest span distance *)

Lemma fold_max_ge_init (l : list Point) (m : R) :
  m <= fold_left (fun max p => Rmax max (Rabs (py p))) l m.
Proof.
  revert m. induction l as [| p l IH]; intros m; cbn [fold_left].
  - lra.
  - specialize (IH (Rmax m (Rabs (py p)))).
    pose proof (Rmax_l m (Rabs (py p))). lra.
Qed.

Lemma fold_max_ge_elem (l : list Point) (m : R) (p : Point) :
  In p l ->
  Rabs (py p) <= fold_left (fun max p => Rmax max (Rabs (py p))) l m.
Proof.
  revert m. induction l as [| q l IH]; intros m Hin; cbn [fold_left].
  - destruct Hin.
  - destruct Hin as [-> | Hin].
    + pose proof (fold_max_ge_init l (Rmax m (Rabs (py p)))).
      pose proof (Rmax_r m (Rabs (py p))). lra.
    + apply IH. exact Hin.
Qed.

Lemma fold_max_attained (l : list Point) (m : R) :
  fold_left (fun max p => Rmax max (Rabs (py p))) l m = m \/
  exists p : Point,
    In p l /\
    fold_left (fun max p => Rmax max (Rabs (py p))) l m = Rabs (py p).
Proof.
  revert m. induction l as [| q l IH]; intros m; cbn [fold_left].
  - left. reflexivity.
  - destruct (IH (Rmax m (Rabs (py q)))) as [Heq | (p & Hin & Heq)].
    + rewrite Heq. unfold Rmax. destruct (Rle_dec m (Rabs (py q))).
      * right. exists q. split; [left; reflexivity | reflexivity].
      * left. reflexivity.
    + right. exists p. split; [right; exact Hin | exact Heq].
Qed.

Lemma getMaxDist_ge (samples : list Point) (p : Point) :
  In p samples -> Rabs (py p) <= getMaxDist samples.
Proof.
  intros Hin. unfold getMaxDist.
  destruct (decide (length samples = 0%nat)) as [H0 | _].
  - destruct samples; [destruct Hin | discriminate].
  - apply fold_max_ge_elem. exact Hin.
Qed.

Lemma getMaxDist_nonneg (samples : list Point) : 0 <= getMaxDist samples.
Proof.
  unfold getMaxDist.
  destruct (decide (length samples = 0%nat)); [lra | apply fold_max_ge_init].
Qed.

Lemma getMaxDist_attained (samples : list Point) :
  samples <> [] ->
  exists p : Point, In p samples /\ getMaxDist samples = Rabs (py p).
Proof.
  intros Hne. unfold getMaxDist.
  destruct (decide (length samples = 0%nat)) as [H0 | _].
  - destruct samples; [congruence | discriminate].
  - destruct (fold_max_attained samples 0) as [Heq | Hex]; [| exact Hex].
    destruct samples as [| q l]; [congruence |].
    exists q. split; [left; reflexivity |].
    pose proof (fold_max_ge_elem (q :: l) 0 q (or_introl eq_refl)) as Hge.
    rewrite Heq in Hge |- *.
    pose proof (Rabs_pos (py q)). lra.
Qed.

Lemma lookup_total_In (samples : list Point) (i : nat) :
  (i < length samples)%nat -> In (samples !!! i) samples.
Proof.
  intros Hi. apply list_elem_of_In.
  apply list_elem_of_lookup_total_2. exact Hi.
Qed.

Lemma maxDist_max (LE TE : list Point) :
  LE <> [] ->
  let maxDist := Rmax (getMaxDist LE) (getMaxDist TE) in
  (forall p : Point, In p (LE ++ TE) -> Rabs (py p) <= maxDist) /\
  (exists p : Point, In p (LE ++ TE) /\ Rabs (py p) = maxDist).
Proof.
  intros HLE maxDist. split.
  - intros p Hin. apply in_app_or in Hin. unfold maxDist.
    destruct Hin as [Hin | Hin].
    + pose proof (getMaxDist_ge LE p Hin).
      pose proof (Rmax_l (getMaxDist LE) (getMaxDist TE)). lra.
    + pose proof (getMaxDist_ge TE p Hin).
      pose proof (Rmax_r (getMaxDist LE) (getMaxDist TE)). lra.
  - unfold maxDist, Rmax.
    destruct (Rle_dec (getMaxDist LE) (getMaxDist TE)) as [Hle | Hgt].
    + destruct TE as [| q TE'].
      * destruct (getMaxDist_attained LE HLE) as (p & Hin & Heq).
        exists p. split; [apply in_or_app; left; exact Hin |].
        pose proof (getMaxDist_nonneg LE).
        change (getMaxDist []) with 0 in *. lra.
      * destruct (getMaxDist_attained (q :: TE')) as (p & Hin & Heq);
          [discriminate |].
        exists p. split; [apply in_or_app; right; exact Hin | congruence].
    + destruct (getMaxDist_attained LE HLE) as (p & Hin & Heq).
      exists p. split; [apply in_or_app; left; exact Hin | congruence].
Qed.

Lemma Rabs_le_0 (x : R) : Rabs x <= 0 -> x = 0.
Proof. unfold Rabs. destruct (Rcase_abs x); lra. Qed.

Lemma maxDist_positive (LE TE : list Point) :
  (2 <= length LE)%nat -> (2 <= length TE)%nat ->
  Rmin (getMaxY LE) (getMaxY TE) - Rmax (getMinY LE) (getMinY TE) <> 0 ->
  0 < Rmax (getMaxDist LE) (getMaxDist TE).
Proof.
  intros HLE HTE Hspan.
  assert (HLEne : LE <> []) by (destruct LE; [cbn in HLE; lia | discriminate]).
  assert (HTEne : TE <> []) by (destruct TE; [cbn in HTE; lia | discriminate]).
  rewrite !getMinY_first, !getMaxY_last in Hspan by assumption.
  pose proof (getMaxDist_ge LE _ (lookup_total_In LE 0 ltac:(lia))) as HL0.
  pose proof (getMaxDist_ge LE _
                (lookup_total_In LE (length LE - 1) ltac:(lia))) as HL1.
  pose proof (getMaxDist_ge TE _ (lookup_total_In TE 0 ltac:(lia))) as HT0.
  pose proof (getMaxDist_ge TE _
                (lookup_total_In TE (length TE - 1) ltac:(lia))) as HT1.
  pose proof (Rmax_l (getMaxDist LE) (getMaxDist TE)) as Hl.
  pose proof (Rmax_r (getMaxDist LE) (getMaxDist TE)) as Hr.
  set (a0 := py (LE !!! 0%nat)) in *.
  set (a1 := py (LE !!! (length LE - 1)%nat)) in *.
  set (b0 := py (TE !!! 0%nat)) in *.
  set (b1 := py (TE !!! (length TE - 1)%nat)) in *.
  set (m := Rmax (getMaxDist LE) (getMaxDist TE)) in *.
  destruct (Rle_lt_dec m 0) as [Hm | Hm]; [| exact Hm].
  exfalso. apply Hspan.
  assert (Ha0 : a0 = 0).
  { apply Rabs_le_0. lra. }
  assert (Ha1 : a1 = 0).
  { apply Rabs_le_0. lra. }
  assert (Hb0 : b0 = 0).
  { apply Rabs_le_0. lra. }
  assert (Hb1 : b1 = 0).
  { apply Rabs_le_0. lra. }
  rewrite Ha0, Ha1, Hb0, Hb1.
  unfold Rmin, Rmax. destruct (Rle_dec 0 0); lra.
Qed.

(** ** Evaluating the model on small profiles *)

Lemma interpolateX_pair_first (x0 y0 x1 y1 : R) :
  y0 < y1 -> interpolateX [mkPoint x0 y0; mkPoint x1 y1] y0 = x0.
Proof.
  intros Hlt. rewrite interpolateX_in_range by (cbn; lra).
  cbn [interpolate_scan py px].
  destruct (decide (y0 <= y0 /\ y1 >= y0)) as [_ | Hn].
  - destruct (decide (y1 - y0 = 0)) as [H0 | Hne]; [lra |].
    field. exact Hne.
  - exfalso. apply Hn. lra.
Qed.


Lemma chord_at_nonneg (LE TE : list Point) (y : R) : 0 <= chord_at LE TE y.
Proof. unfold chord_at. apply Rabs_pos. Qed.

Lemma area_sum_positive (LE TE : list Point) (minY dy : R) :
  0 < dy -> 0 < chord_at LE TE minY -> 0 < area_sum LE TE minY dy.
Proof.
  intros Hdy Hc. unfold area_sum. apply sum_f_R0_first_pos.
  - intros k. pose proof (chord_at_nonneg LE TE (grid minY dy k)). nra.
  - rewrite grid_0. nra.
Qed.



Lemma Rmax_same (x : R) : Rmax x x = x.
Proof. unfold Rmax. destruct (Rle_dec x x); reflexivity. Qed.

Lemma Rmin_same (x : R) : Rmin x x = x.
Proof. unfold Rmin. destruct (Rle_dec x x); reflexivity. Qed.

(** The tapered half wing: chord [2 - 0.1 y] over the span [[0, 10]]. *)
Lemma taper_bounds :
  Rmax (getMinY taper_LE) (getMinY taper_TE) = 0 /\
  Rmin (getMaxY taper_LE) (getMaxY taper_TE) = 10.
Proof.
  rewrite !getMinY_first, !getMaxY_last by discriminate.
  cbn. rewrite Rmax_same, Rmin_same. split; reflexivity.
Qed.

Lemma taper_chord_root : chord_at taper_LE taper_TE 0 = 2.
Proof.
  unfold chord_at, taper_LE, taper_TE.
  rewrite !interpolateX_pair_first by lra.
  replace (2 - 0) with 2 by ring. apply Rabs_right. lra.
Qed.

Lemma taper_area_nonzero :
  area_sum taper_LE taper_TE 0 ((10 - 0) / 1000) <> 0.
Proof.
  apply Rgt_not_eq. apply area_sum_positive; [lra |].
  rewrite taper_chord_root. lra.
Qed.

(** Two edges whose span intervals [[0, 1]] and [[2, 3]] do not meet. *)
Lemma apart_bounds :
  Rmax (getMinY apart_LE) (getMinY apart_TE) = 2 /\
  Rmin (getMaxY apart_LE) (getMaxY apart_TE) = 1.
Proof.
  rewrite !getMinY_first, !getMaxY_last by discriminate.
  cbn. unfold Rmax, Rmin.
  destruct (Rle_dec 0 2); [| lra]. destruct (Rle_dec 1 3); [| lra].
  split; reflexivity.
Qed.


(** A rectangular wing drawn on the negative side, span [[-10, -5]]. *)
Lemma port_bounds :
  Rmax (getMinY port_LE) (getMinY port_TE) = -10 /\
  Rmin (getMaxY port_LE) (getMaxY port_TE) = -5.
Proof.
  rewrite !getMinY_first, !getMaxY_last by discriminate.
  cbn. rewrite Rmax_same, Rmin_same. split; reflexivity.
Qed.

Lemma port_chord : chord_at port_LE port_TE (-10) = 2.
Proof.
  unfold chord_at, port_LE, port_TE.
  rewrite !interpolateX_pair_first by lra.
  replace (2 - 0) with 2 by ring. apply Rabs_right. lra.
Qed.

(** ** The integration entry point: results *)




(** ** The integration entry point: failures *)




(** C3 as stated fails: on edges whose span intervals do not meet the
    call throws [ZeroArea], not [ZeroSpan]. *)
Lemma C3_counterexample :
  (2 <= length apart_LE)%nat /\ (2 <= length apart_TE)%nat /\
  Rmax (getMinY apart_LE) (getMinY apart_TE)
    > Rmin (getMaxY apart_LE) (getMaxY apart_TE) /\
  calculate_samples 1002 apart_LE apart_TE 0 (mkPoint 0 0) 20
    = Throw ZeroArea /\
  calculate_samples 1002 apart_LE apart_TE 0 (mkPoint 0 0) 20
    <> Throw ZeroSpan.
Proof.
  assert (Hcross : Rmax (getMinY apart_LE) (getMinY apart_TE)
                   > Rmin (getMaxY apart_LE) (getMaxY apart_TE)).
  { destruct apart_bounds as [Hmin Hmax]. rewrite Hmin, Hmax. lra. }
  assert (Hcalc : calculate_samples 1002 apart_LE apart_TE 0 (mkPoint 0 0) 20
                  = Throw ZeroArea).
  { apply calculate_samples_crossed; [cbn; lia | cbn; lia | exact Hcross | lia]. }
  split; [cbn; lia |]. split; [cbn; lia |]. split; [exact Hcross |].
  split; [exact Hcalc |]. rewrite Hcalc. discriminate.
Qed.

(** C3, amended.  For every pair of profiles with at least 2 samples
    each whose span intervals do not overlap (the larger of the two
    first span values exceeds the smaller of the two last ones), the
    loop body never runs, the accumulated area is [0] and the call
    throws [ZeroArea]. *)
Theorem C3_disjoint_spans (fuel : nat) (LE TE : list Point)
    (angle : R) (o : Point) (w : R) :
  (2 <= length LE)%nat -> (2 <= length TE)%nat ->
  let minY := Rmax (py (LE !!! 0%nat)) (py (TE !!! 0%nat)) in
  let maxY := Rmin (py (LE !!! (length LE - 1)%nat))
                   (py (TE !!! (length TE - 1)%nat)) in
  minY > maxY -> (1 <= fuel)%nat ->
  integrate fuel LE TE minY maxY ((maxY - minY) / 1000)
    = Some (mkSums 0 0 0) /\
  calculate_samples fuel LE TE angle o w = Throw ZeroArea.
Proof.
  intros HLE HTE minY maxY Hcross Hfuel.
  assert (HLEne : LE <> []) by (destruct LE; [cbn in HLE; lia | discriminate]).
  assert (HTEne : TE <> []) by (destruct TE; [cbn in HTE; lia | discriminate]).
  split.
  - apply integrate_crossed; [lra | exact Hfuel].
  - apply calculate_samples_crossed; try assumption.
    rewrite !getMinY_first, !getMaxY_last by assumption. exact Hcross.
Qed.

Lemma C3_disjoint_spans_witness :
  calculate_samples 1 apart_LE apart_TE 0 (mkPoint 0 0) 20 = Throw ZeroArea.
Proof.
  refine (proj2 (C3_disjoint_spans 1 apart_LE apart_TE 0 (mkPoint 0 0) 20
                   _ _ _ _)).
  - cbn. lia.
  - cbn. lia.
  - unfold apart_LE, apart_TE. eval_lookup. unfold Rmax, Rmin.
    destruct (Rle_dec 0 2); [| lra]. destruct (Rle_dec 1 3); lra.
  - lia.
Defined.

(** ** Scaling *)

Lemma calculate_samples_inv (fuel : nat) (LE TE : list Point)
    (angle : R) (o : Point) (w : R) (r : MACResult) :
  calculate_samples fuel LE TE angle o w = Return r ->
  let minY := Rmax (getMinY LE) (getMinY TE) in
  let maxY := Rmin (getMaxY LE) (getMaxY TE) in
  let dy := (maxY - minY) / 1000 in
  let scale := (w / 2) / Rmax (getMaxDist LE) (getMaxDist TE) in
  (2 <= length LE)%nat /\ (2 <= length TE)%nat /\ dy <> 0 /\
  exists (sums : Sums) (best : Best),
    integrate fuel LE TE minY maxY dy = Some sums /\
    area sums <> 0 /\
    locate fuel LE TE minY maxY dy (integral_c_sq sums / area sums)
           (moment_y sums / area sums) = Some best /\
    r = mkMACResult
          (integral_c_sq sums / area sums * scale)
          (area sums * (scale * scale)
           * (if decide (minY * maxY < 0) then 1 else 2))
          (integral_c_sq sums / area sums)
          (visual_Y best)
          (interpolateX LE (visual_Y best))
          scale angle o.
Proof.
  intros Hcalc minY maxY dy scale. unfold calculate_samples in Hcalc.
  destruct (decide (length LE < 2 \/ length TE < 2)%nat) as [_ | Hlen];
    [discriminate |].
  fold minY maxY dy in Hcalc.
  destruct (decide (dy = 0)) as [_ | Hdy]; [discriminate |].
  destruct (integrate fuel LE TE minY maxY dy) as [sums |] eqn:Hint;
    [| discriminate].
  destruct (decide (area sums = 0)) as [_ | Harea]; [discriminate |].
  destruct (locate fuel LE TE minY maxY dy (integral_c_sq sums / area sums)
              (moment_y sums / area sums)) as [best |] eqn:Hloc;
    [| discriminate].
  injection Hcalc as <-.
  split; [lia |]. split; [lia |]. split; [exact Hdy |].
  exists sums, best. repeat split; assumption.
Qed.

(** C8.  For every call on two sampled profiles that returns a result
    [r]: [maxDist], the larger of the two [getMaxDist], bounds [|y|] of
    every sample of both profiles and is [|y|] of one of them;
    [scaleFactor = (realWingspan / 2) / maxDist]; [MAC = MAC_pixels *
    scaleFactor]; and [Area] is the accumulated area times
    [scaleFactor * scaleFactor], times [1] when [minY * maxY < 0] and
    times [2] otherwise.  The sign of [realWingspan] plays no part. *)
Theorem C8_scaling (fuel : nat) (LE TE : list Point)
    (angle : R) (o : Point) (realWingspan : R) (r : MACResult) :
  calculate_samples fuel LE TE angle o realWingspan = Return r ->
  let minY := Rmax (getMinY LE) (getMinY TE) in
  let maxY := Rmin (getMaxY LE) (getMaxY TE) in
  let dy := (maxY - minY) / 1000 in
  let maxDist := Rmax (getMaxDist LE) (getMaxDist TE) in
  (forall p : Point, In p (LE ++ TE) -> Rabs (py p) <= maxDist) /\
  (exists p : Point, In p (LE ++ TE) /\ Rabs (py p) = maxDist) /\
  scaleFactor r = (realWingspan / 2) / maxDist /\
  MAC r = MAC_pixels r * scaleFactor r /\
  exists sums : Sums,
    integrate fuel LE TE minY maxY dy = Some sums /\
    Area r = area sums * (scaleFactor r * scaleFactor r)
             * (if decide (minY * maxY < 0) then 1 else 2).
Proof.
  intros Hcalc minY maxY dy maxDist.
  destruct (calculate_samples_inv fuel LE TE angle o realWingspan r Hcalc)
    as (HLE & _ & _ & sums & best & Hint & _ & _ & ->).
  assert (HLEne : LE <> []) by (destruct LE; [cbn in HLE; lia | discriminate]).
  destruct (maxDist_max LE TE HLEne) as [Hbound Hattained].
  split; [exact Hbound |]. split; [exact Hattained |].
  cbn [scaleFactor MAC MAC_pixels Area].
  split; [reflexivity |]. split; [reflexivity |].
  exists sums. split; [exact Hint | reflexivity].
Qed.

Lemma taper_returns :
  exists r : MACResult,
    calculate_samples 1002 taper_LE taper_TE 0 (mkPoint 0 0) 20 = Return r.
Proof.
  destruct taper_bounds as [Hmin Hmax].
  destruct (calculate_samples_returns 1002 taper_LE taper_TE 0 (mkPoint 0 0)
              20) as (best & _ & _ & Hret).
  - cbn. lia.
  - cbn. lia.
  - rewrite Hmin, Hmax. lra.
  - lia.
  - rewrite Hmin, Hmax. exact taper_area_nonzero.
  - eexists. exact Hret.
Qed.

Lemma C8_scaling_witness :
  exists r : MACResult,
    calculate_samples 1002 taper_LE taper_TE 0 (mkPoint 0 0) 20 = Return r /\
    scaleFactor r
      = (20 / 2) / Rmax (getMaxDist taper_LE) (getMaxDist taper_TE) /\
    MAC r = MAC_pixels r * scaleFactor r.
Proof.
  destruct taper_returns as [r Hr]. exists r. split; [exact Hr |].
  destruct (C8_scaling 1002 taper_LE taper_TE 0 (mkPoint 0 0) 20 r Hr)
    as (_ & _ & Hscale & HMAC & _).
  split; [exact Hscale | exact HMAC].
Defined.

(** C10.  For every pair of profiles with at least 2 samples each whose
    step [(maxY - minY) / 1000] is not [0], the divisor [maxDist] of the
    scale factor, the largest [|y|] over the samples of both profiles,
    is strictly positive. *)
Theorem C10_maxDist_positive (LE TE : list Point) :
  (2 <= length LE)%nat -> (2 <= length TE)%nat ->
  let minY := Rmax (getMinY LE) (getMinY TE) in
  let maxY := Rmin (getMaxY LE) (getMaxY TE) in
  (maxY - minY) / 1000 <> 0 ->
  let maxDist := Rmax (getMaxDist LE) (getMaxDist TE) in
  0 < maxDist /\
  (forall p : Point, In p (LE ++ TE) -> Rabs (py p) <= maxDist) /\
  (exists p : Point, In p (LE ++ TE) /\ Rabs (py p) = maxDist).
Proof.
  intros HLE HTE minY maxY Hdy maxDist.
  assert (HLEne : LE <> []) by (destruct LE; [cbn in HLE; lia | discriminate]).
  split.
  - apply maxDist_positive; try assumption.
    intros H0. apply Hdy. fold minY maxY in H0. rewrite H0. lra.
  - apply maxDist_max. exact HLEne.
Qed.

Lemma C10_maxDist_positive_witness :
  0 < Rmax (getMaxDist taper_LE) (getMaxDist taper_TE).
Proof.
  refine (proj1 (C10_maxDist_positive taper_LE taper_TE _ _ _)).
  - cbn. lia.
  - cbn. lia.
  - destruct taper_bounds as [Hmin Hmax]. rewrite Hmin, Hmax. lra.
Defined.

(** ** The tridiagonal solver *)

Lemma thomas_row (ai bi ci di cm dm cPi dPi xm xi xn : R) :
  bi - ai * cm <> 0 ->
  dPi = (di - ai * dm) / (bi - ai * cm) ->
  cPi = ci / (bi - ai * cm) ->
  xm = dm - cm * xi ->
  xi = dPi - cPi * xn ->
  ai * xm + bi * xi + ci * xn = di.
Proof.
  intros Hp HD HC Hxm Hxi. rewrite Hxm, Hxi, HD, HC.
  set (p := bi - ai * cm) in *.
  replace bi with (p + ai * cm) by (unfold p; ring).
  field. exact Hp.
Qed.

Lemma thomas_last_row (ai bi di cm dm dPi xm xi : R) :
  bi - ai * cm <> 0 ->
  dPi = (di - ai * dm) / (bi - ai * cm) ->
  xm = dm - cm * xi ->
  xi = dPi ->
  ai * xm + bi * xi = di.
Proof.
  intros Hp HD Hxm Hxi. rewrite Hxm, Hxi, HD.
  set (p := bi - ai * cm) in *.
  replace bi with (p + ai * cm) by (unfold p; ring).
  field. exact Hp.
Qed.

Section Thomas.
Variables a b c d : list R.

Local Abbreviation n := (length d).

Lemma forward_step_inv (m : nat) (st : list R * list R) :
  (S m < n)%nat ->
  forward_inv a b c d m st ->
  forward_inv a b c d (S m) (Spline.forward_step a b c d n st (S m)).
Proof.
  intros Hm. destruct st as [cP dP].
  intros (HlenC & HlenD & HC0 & HD0 & Hrows). cbn [fst snd] in *.
  unfold Spline.forward_step.
  set (demon := b !!! S m - a !!! S m * cP !!! (S m - 1)%nat).
  set (cP' := if decide (S m < n - 1)%nat
              then <[S m := c !!! S m / demon]> cP else cP).
  set (dP' := <[S m := (d !!! S m - a !!! S m * dP !!! (S m - 1)%nat)
                       / demon]> dP).
  assert (HcP' : forall j : nat, j <> S m -> cP' !!! j = cP !!! j).
  { intros j Hj. unfold cP'. destruct (decide (S m < n - 1)%nat).
    - apply list_lookup_total_insert_ne. lia.
    - reflexivity. }
  assert (HdP' : forall j : nat, j <> S m -> dP' !!! j = dP !!! j).
  { intros j Hj. unfold dP'. apply list_lookup_total_insert_ne. lia. }
  assert (Hpiv : forall i : nat, (1 <= i <= S m)%nat ->
                                 pivot a b cP' i = pivot a b cP i).
  { intros i Hi. unfold pivot. rewrite HcP' by lia. reflexivity. }
  unfold forward_inv. cbn [fst snd].
  split; [| split; [| split; [| split]]].
  - unfold cP'. destruct (decide (S m < n - 1)%nat);
      [rewrite length_insert |]; exact HlenC.
  - unfold dP'. rewrite length_insert. exact HlenD.
  - rewrite HcP' by lia. exact HC0.
  - rewrite HdP' by lia. exact HD0.
  - intros i Hi. rewrite (Hpiv i Hi).
    destruct (decide (i = S m)) as [-> | Hne].
    + split.
      * unfold dP' at 1. rewrite list_lookup_total_insert_eq by lia.
        rewrite HdP' by lia. reflexivity.
      * intros Hlt. unfold cP'.
        destruct (decide (S m < n - 1)%nat) as [_ | Hn]; [| lia].
        rewrite list_lookup_total_insert_eq by lia. reflexivity.
    + destruct (Hrows i ltac:(lia)) as [HD HC].
      rewrite !HdP' by lia. split; [exact HD |].
      intros Hlt. rewrite HcP' by lia. exact (HC Hlt).
Qed.

Lemma forward_fold_inv (m : nat) (st : list R * list R) :
  (m < n)%nat ->
  forward_inv a b c d 0 st ->
  forward_inv a b c d m
    (fold_left (Spline.forward_step a b c d n) (seq 1 m) st).
Proof.
  induction m as [| m IH]; intros Hm Hst.
  - exact Hst.
  - rewrite seq_S, fold_left_app. cbn [fold_left Nat.add].
    apply forward_step_inv; [exact Hm |]. apply IH; [lia | exact Hst].
Qed.

Lemma forward_spec :
  (1 <= n)%nat -> forward_inv a b c d (n - 1) (Spline.forward a b c d).
Proof.
  intros Hn. unfold Spline.forward.
  apply forward_fold_inv; [lia |].
  unfold forward_inv. cbn [fst snd].
  rewrite !length_insert, !length_replicate.
  rewrite !list_lookup_total_insert_eq by (rewrite length_replicate; lia).
  repeat split; try reflexivity; lia.
Qed.

Lemma backward_fold_inv (cPrime dPrime : list R) (m : nat) (x : list R) :
  (m <= n - 1)%nat ->
  backward_inv n cPrime dPrime m x ->
  backward_inv n cPrime dPrime 0
    (fold_left (Spline.backward_step cPrime dPrime) (rev (seq 0 m)) x).
Proof.
  revert x. induction m as [| m IH]; intros x Hm Hx.
  - exact Hx.
  - rewrite seq_S, rev_app_distr. cbn [rev app fold_left Nat.add].
    apply IH; [lia |].
    destruct Hx as (Hlen & Hlast & Hrows).
    unfold Spline.backward_step, backward_inv.
    split; [rewrite length_insert; exact Hlen |].
    split; [rewrite list_lookup_total_insert_ne by lia; exact Hlast |].
    intros i Hi. destruct (decide (i = m)) as [-> | Hne].
    + rewrite list_lookup_total_insert_eq by lia.
      rewrite list_lookup_total_insert_ne by lia. reflexivity.
    + rewrite !list_lookup_total_insert_ne by lia.
      apply Hrows. lia.
Qed.

Lemma backward_spec (cPrime dPrime : list R) :
  (1 <= n)%nat ->
  backward_inv n cPrime dPrime 0 (Spline.backward n cPrime dPrime).
Proof.
  intros Hn. unfold Spline.backward.
  apply backward_fold_inv; [lia |].
  unfold backward_inv. rewrite length_insert, length_replicate.
  split; [reflexivity |].
  split; [apply list_lookup_total_insert_eq; rewrite length_replicate; lia |].
  intros i Hi. lia.
Qed.

(** The solver's output satisfies every row of the system whose
    divisors are not zero. *)
Lemma thomasAlgorithm_rows :
  (2 <= n)%nat ->
  b !!! 0%nat <> 0 ->
  (forall i : nat, (1 <= i < n)%nat ->
                   pivot a b (fst (Spline.forward a b c d)) i <> 0) ->
  let x := Spline.thomasAlgorithm a b c d in
  length x = n /\
  b !!! 0%nat * x !!! 0%nat + c !!! 0%nat * x !!! 1%nat = d !!! 0%nat /\
  (forall i : nat, (1 <= i < n - 1)%nat ->
     a !!! i * x !!! (i - 1)%nat + b !!! i * x !!! i
     + c !!! i * x !!! (i + 1)%nat = d !!! i) /\
  a !!! (n - 1)%nat * x !!! (n - 2)%nat
  + b !!! (n - 1)%nat * x !!! (n - 1)%nat = d !!! (n - 1)%nat.
Proof.
  intros Hn Hb0 Hpiv x.
  pose proof (forward_spec ltac:(lia)) as Hfwd.
  unfold x, Spline.thomasAlgorithm.
  destruct (Spline.forward a b c d) as [cP dP] eqn:Hf.
  cbn [fst] in Hpiv.
  destruct Hfwd as (_ & _ & HC0 & HD0 & Hrows). cbn [fst snd] in *.
  destruct (backward_spec cP dP ltac:(lia)) as (Hlen & Hlast & Hback).
  set (s := Spline.backward n cP dP) in *.
  split; [exact Hlen |]. split; [| split].
  - rewrite (Hback 0%nat) by lia. rewrite HC0, HD0.
    cbn [Nat.add]. field. exact Hb0.
  - intros i Hi.
    destruct (Hrows i ltac:(lia)) as [HD HC]. specialize (HC ltac:(lia)).
    pose proof (Hpiv i ltac:(lia)) as Hp.
    pose proof (Hback (i - 1)%nat ltac:(lia)) as Hxm.
    replace (i - 1 + 1)%nat with i in Hxm by lia.
    exact (thomas_row _ _ _ _ _ _ _ _ _ _ _ Hp HD HC Hxm
             (Hback i ltac:(lia))).
  - destruct (Hrows (n - 1)%nat ltac:(lia)) as [HD _].
    pose proof (Hpiv (n - 1)%nat ltac:(lia)) as Hp.
    pose proof (Hback (n - 2)%nat ltac:(lia)) as Hxm.
    replace (n - 2 + 1)%nat with (n - 1)%nat in Hxm by lia.
    unfold pivot in HD, Hp.
    replace (n - 1 - 1)%nat with (n - 2)%nat in HD, Hp by lia.
    exact (thomas_last_row _ _ _ _ _ _ _ _ Hp HD Hxm Hlast).
Qed.
End Thomas.

(** ** The tangent system of the spline fitter *)

Lemma fold_insert_lookup (f : nat -> R) :
  forall (m j : nat) (r : list R),
    length (fold_left (fun r i => <[i := f i]> r) (seq j m) r) = length r /\
    forall i : nat,
      fold_left (fun r i => <[i := f i]> r) (seq j m) r !!! i =
        if decide ((j <= i < j + m)%nat /\ (i < length r)%nat) then f i
        else r !!! i.
Proof.
  induction m as [| m IH]; intros j r.
  - cbn [seq fold_left]. split; [reflexivity |]. intros i.
    case_decide; [lia | reflexivity].
  - cbn [seq fold_left].
    destruct (IH (S j) (<[j := f j]> r)) as [Hlen Hlook].
    rewrite length_insert in Hlen, Hlook.
    split; [exact Hlen |]. intros i. rewrite Hlook.
    rewrite list_lookup_total_insert.
    repeat case_decide; try reflexivity; try lia.
    match goal with H : j = i /\ _ |- _ => destruct H as [-> _] end.
    reflexivity.
Qed.

Section Diagonals.
Variable n : nat.
Hypothesis Hn : (1 <= n)%nat.

Lemma diag_lengths :
  length (Spline.diag_a n) = (n + 1)%nat /\
  length (Spline.diag_b n) = (n + 1)%nat /\
  length (Spline.diag_c n) = (n + 1)%nat.
Proof.
  unfold Spline.diag_a, Spline.diag_b, Spline.diag_c.
  rewrite !length_insert, !length_replicate. auto.
Qed.

Lemma diag_a_lookup (i : nat) : (i <= n)%nat -> Spline.diag_a n !!! i = 1.
Proof.
  intros Hi. unfold Spline.diag_a. rewrite list_lookup_total_insert.
  case_decide; [reflexivity |].
  apply lookup_total_replicate_2. lia.
Qed.

Lemma diag_c_lookup (i : nat) : (i <= n)%nat -> Spline.diag_c n !!! i = 1.
Proof.
  intros Hi. unfold Spline.diag_c. rewrite list_lookup_total_insert.
  case_decide; [reflexivity |].
  apply lookup_total_replicate_2. lia.
Qed.

Lemma diag_b_first : Spline.diag_b n !!! 0%nat = 2.
Proof.
  unfold Spline.diag_b. rewrite list_lookup_total_insert_ne by lia.
  apply list_lookup_total_insert_eq. rewrite length_replicate. lia.
Qed.

Lemma diag_b_last : Spline.diag_b n !!! n = 2.
Proof.
  unfold Spline.diag_b. apply list_lookup_total_insert_eq.
  rewrite length_insert, length_replicate. lia.
Qed.

Lemma diag_b_inner (i : nat) :
  (1 <= i < n)%nat -> Spline.diag_b n !!! i = 4.
Proof.
  intros Hi. unfold Spline.diag_b.
  rewrite !list_lookup_total_insert_ne by lia.
  apply lookup_total_replicate_2. lia.
Qed.

Variable coord : Point -> R.
Variable points : list Point.

Lemma rhs_length : length (Spline.rhs coord points n) = (n + 1)%nat.
Proof.
  unfold Spline.rhs. rewrite length_insert.
  rewrite (proj1 (fold_insert_lookup _ _ _ _)).
  rewrite length_insert, length_replicate. reflexivity.
Qed.

Lemma rhs_first :
  Spline.rhs coord points n !!! 0%nat
    = 3 * (coord (points !!! 1%nat) - coord (points !!! 0%nat)).
Proof.
  unfold Spline.rhs. rewrite list_lookup_total_insert_ne by lia.
  rewrite (proj2 (fold_insert_lookup _ _ _ _)).
  case_decide; [lia |].
  apply list_lookup_total_insert_eq. rewrite length_replicate. lia.
Qed.

Lemma rhs_inner (i : nat) :
  (1 <= i < n)%nat ->
  Spline.rhs coord points n !!! i
    = 3 * (coord (points !!! (i + 1)%nat) - coord (points !!! (i - 1)%nat)).
Proof.
  intros Hi. unfold Spline.rhs. rewrite list_lookup_total_insert_ne by lia.
  rewrite (proj2 (fold_insert_lookup _ _ _ _)).
  rewrite length_insert, length_replicate.
  case_decide; [reflexivity | lia].
Qed.

Lemma rhs_last :
  Spline.rhs coord points n !!! n
    = 3 * (coord (points !!! n) - coord (points !!! (n - 1)%nat)).
Proof.
  unfold Spline.rhs. apply list_lookup_total_insert_eq.
  rewrite (proj1 (fold_insert_lookup _ _ _ _)).
  rewrite length_insert, length_replicate. lia.
Qed.

(** The normalised upper coefficients stay in [(0, 1/2]], so no
    divisor of the elimination is zero. *)
Lemma spline_cPrime_bounds (i : nat) :
  (i < n)%nat ->
  let cP := fst (Spline.forward (Spline.diag_a n) (Spline.diag_b n)
                   (Spline.diag_c n) (Spline.rhs coord points n)) in
  0 < cP !!! i <= 1 / 2.
Proof.
  intros Hi cP.
  pose proof (forward_spec (Spline.diag_a n) (Spline.diag_b n)
                (Spline.diag_c n) (Spline.rhs coord points n)) as Hfwd.
  rewrite rhs_length in Hfwd. specialize (Hfwd ltac:(lia)).
  unfold cP.
  destruct (Spline.forward _ _ _ _) as [cP' dP'].
  cbn [fst]. clear cP.
  destruct Hfwd as (_ & _ & HC0 & _ & Hrows). cbn [fst snd] in HC0, Hrows.
  rewrite diag_c_lookup, diag_b_first in HC0 by lia.
  induction i as [| i IH].
  - rewrite HC0. lra.
  - specialize (IH ltac:(lia)).
    destruct (Hrows (S i) ltac:(lia)) as [_ HC].
    rewrite rhs_length in HC.
    specialize (HC ltac:(lia)). rewrite HC. unfold pivot.
    rewrite diag_c_lookup, diag_a_lookup, diag_b_inner by lia.
    replace (S i - 1)%nat with i by lia.
    assert (Hp : 7 / 2 <= 4 - 1 * cP' !!! i) by lra.
    split.
    + apply Rdiv_lt_0_compat; lra.
    + apply Rle_trans with (1 / (7 / 2)); [| lra].
      unfold Rdiv. apply Rmult_le_compat_l; [lra |].
      apply Rinv_le_contravar; lra.
Qed.

Lemma spline_pivot_nonzero (i : nat) :
  (1 <= i <= n)%nat ->
  pivot (Spline.diag_a n) (Spline.diag_b n)
        (fst (Spline.forward (Spline.diag_a n) (Spline.diag_b n)
                (Spline.diag_c n) (Spline.rhs coord points n))) i <> 0.
Proof.
  intros Hi. unfold pivot.
  pose proof (spline_cPrime_bounds (i - 1) ltac:(lia)) as Hc.
  cbv zeta in Hc. rewrite diag_a_lookup by lia.
  destruct (decide (i = n)) as [-> | Hne].
  - rewrite diag_b_last. lra.
  - rewrite diag_b_inner by lia. lra.
Qed.
End Diagonals.

(** The tangents solve the system that [solve] sets up. *)
Lemma tangents_rows (coord : Point -> R) (points : list Point) :
  (2 <= length points)%nat ->
  let n := (length points - 1)%nat in
  let D := Spline.tangents coord points in
  length D = (n + 1)%nat /\
  2 * D !!! 0%nat + D !!! 1%nat
    = 3 * (coord (points !!! 1%nat) - coord (points !!! 0%nat)) /\
  (forall i : nat, (1 <= i <= n - 1)%nat ->
     D !!! (i - 1)%nat + 4 * D !!! i + D !!! (i + 1)%nat
       = 3 * (coord (points !!! (i + 1)%nat)
              - coord (points !!! (i - 1)%nat))) /\
  2 * D !!! n + D !!! (n - 1)%nat
    = 3 * (coord (points !!! n) - coord (points !!! (n - 1)%nat)).
Proof.
  intros Hlen n D.
  assert (Hn : (1 <= n)%nat) by (unfold n; lia).
  pose proof (thomasAlgorithm_rows (Spline.diag_a n) (Spline.diag_b n)
                (Spline.diag_c n) (Spline.rhs coord points n)) as Hrows.
  rewrite rhs_length in Hrows.
  destruct Hrows as (HlenD & H0 & Hin & Hlast).
  - lia.
  - rewrite diag_b_first by exact Hn. lra.
  - intros i Hi. apply spline_pivot_nonzero; lia.
  - assert (HD : Spline.thomasAlgorithm (Spline.diag_a n) (Spline.diag_b n)
                   (Spline.diag_c n) (Spline.rhs coord points n) = D)
      by reflexivity.
    rewrite HD in HlenD, H0, Hin, Hlast. clear HD.
    split; [exact HlenD |]. split; [| split].
    + rewrite diag_b_first, diag_c_lookup, rhs_first in H0 by lia. lra.
    + intros i Hi. specialize (Hin i ltac:(lia)).
      rewrite diag_a_lookup, diag_b_inner, diag_c_lookup, rhs_inner
        in Hin by lia.
      lra.
    + replace (n + 1 - 1)%nat with n in Hlast by lia.
      replace (n + 1 - 2)%nat with (n - 1)%nat in Hlast by lia.
      rewrite diag_a_lookup, diag_b_last, rhs_last in Hlast by lia. lra.
Qed.

(** ** The Bezier pieces *)

Lemma push_piece_eq (points : list Point) (Dx Dy : list R)
    (acc : list BezierSeg) (i : nat) :
  Spline.push_piece points Dx Dy acc i = acc ++ [piece_at points Dx Dy i].
Proof. reflexivity. Qed.

Lemma solve_fold_pieces (points : list Point) (Dx Dy : list R) (m : nat) :
  let pieces := fold_left (Spline.push_piece points Dx Dy) (seq 0 m) [] in
  length pieces = m /\
  forall i : nat, (i < m)%nat ->
    pieces !!! i = piece_at points Dx Dy i.
Proof.
  induction m as [| m IH]; cbv zeta.
  - split; [reflexivity |]. intros i Hi. lia.
  - rewrite seq_S, fold_left_app. cbn [fold_left Nat.add].
    destruct IH as [Hlen Hlook]. rewrite push_piece_eq.
    split.
    + rewrite length_app, Hlen. cbn [length]. lia.
    + intros i Hi. destruct (decide (i = m)) as [-> | Hne].
      * rewrite lookup_total_app_r by lia.
        rewrite Hlen, Nat.sub_diag. reflexivity.
      * rewrite lookup_total_app_l by lia. apply Hlook. lia.
Qed.

Lemma new_CubicSpline_pieces (points : list Point) :
  (2 <= length points)%nat ->
  let n := (length points - 1)%nat in
  let pieces := Spline.bezierPoints (Spline.new_CubicSpline points) in
  length pieces = n /\
  forall i : nat, (i < n)%nat ->
    pieces !!! i
      = piece_at points (Spline.tangents px points)
                 (Spline.tangents py points) i.
Proof.
  intros Hlen n pieces. unfold pieces, Spline.new_CubicSpline.
  cbn [Spline.bezierPoints].
  destruct (decide (1 < length points)%nat) as [_ | Hn]; [| lia].
  unfold Spline.solve, Spline.isSolvable.
  rewrite bool_decide_eq_true_2 by exact Hlen.
  apply solve_fold_pieces.
Qed.

(** C5.  For every knot sequence [P_0 .. P_n] with [n >= 1], on each
    coordinate axis the tangents [D_0 .. D_n] that [solve] obtains from
    the solver satisfy [2 D_0 + D_1 = 3 (P_1 - P_0)],
    [2 D_n + D_(n-1) = 3 (P_n - P_(n-1))] and, for [1 <= i <= n - 1],
    [D_(i-1) + 4 D_i + D_(i+1) = 3 (P_(i+1) - P_(i-1))]; and piece [i]
    of the spline object has the control points [cp1 = P_i + D_i / 3]
    and [cp2 = P_(i+1) - D_(i+1) / 3]. *)
Theorem C5_tangent_system (points : list Point) :
  (2 <= length points)%nat ->
  let n := (length points - 1)%nat in
  let P := fun i : nat => points !!! i in
  let Dx := fun i : nat => Spline.tangents px points !!! i in
  let Dy := fun i : nat => Spline.tangents py points !!! i in
  let pieces := Spline.bezierPoints (Spline.new_CubicSpline points) in
  (2 * Dx 0%nat + Dx 1%nat = 3 * (px (P 1%nat) - px (P 0%nat)) /\
   2 * Dy 0%nat + Dy 1%nat = 3 * (py (P 1%nat) - py (P 0%nat))) /\
  (2 * Dx n + Dx (n - 1)%nat = 3 * (px (P n) - px (P (n - 1)%nat)) /\
   2 * Dy n + Dy (n - 1)%nat = 3 * (py (P n) - py (P (n - 1)%nat))) /\
  (forall i : nat, (1 <= i <= n - 1)%nat ->
     Dx (i - 1)%nat + 4 * Dx i + Dx (i + 1)%nat
       = 3 * (px (P (i + 1)%nat) - px (P (i - 1)%nat)) /\
     Dy (i - 1)%nat + 4 * Dy i + Dy (i + 1)%nat
       = 3 * (py (P (i + 1)%nat) - py (P (i - 1)%nat))) /\
  length pieces = n /\
  (forall i : nat, (i < n)%nat ->
     cp1 (pieces !!! i)
       = mkPoint (px (P i) + Dx i / 3) (py (P i) + Dy i / 3) /\
     cp2 (pieces !!! i)
       = mkPoint (px (P (i + 1)%nat) - Dx (i + 1)%nat / 3)
                 (py (P (i + 1)%nat) - Dy (i + 1)%nat / 3)).
Proof.
  intros Hlen n P Dx Dy pieces.
  destruct (tangents_rows px points Hlen) as (_ & Hx0 & Hxi & Hxn).
  destruct (tangents_rows py points Hlen) as (_ & Hy0 & Hyi & Hyn).
  destruct (new_CubicSpline_pieces points Hlen) as [Hlenp Hpieces].
  split; [split; assumption |]. split; [split; assumption |].
  split; [intros i Hi; split; [apply Hxi | apply Hyi]; exact Hi |].
  split; [exact Hlenp |].
  intros i Hi. unfold pieces. rewrite (Hpieces i Hi).
  split; reflexivity.
Qed.

Lemma C5_tangent_system_witness :
  let points := [mkPoint 0 0; mkPoint 1 2; mkPoint 3 1] in
  let Dx := fun i : nat => Spline.tangents px points !!! i in
  2 * Dx 0%nat + Dx 1%nat = 3 * (px (points !!! 1%nat) - px (points !!! 0%nat)) /\
  Dx 0%nat + 4 * Dx 1%nat + Dx 2%nat
    = 3 * (px (points !!! 2%nat) - px (points !!! 0%nat)).
Proof.
  cbv zeta.
  destruct (C5_tangent_system [mkPoint 0 0; mkPoint 1 2; mkPoint 3 1])
    as ([Hx0 _] & _ & Hin & _).
  - cbn. lia.
  - split; [exact Hx0 |].
    exact (proj1 (Hin 1%nat ltac:(cbn; lia))).
Defined.

(** ** The fitted curve *)

Lemma derivable_pt_lim_ext_value (f : R -> R) (x l l' : R) :
  derivable_pt_lim f x l -> l' = l -> derivable_pt_lim f x l'.
Proof. intros H ->. exact H. Qed.

Lemma cubic_derivative (c0 c1 c2 c3 t : R) :
  derivable_pt_lim (fun y => c0 + c1 * y + c2 * y ^ 2 + c3 * y ^ 3) t
                   (c1 + 2 * c2 * t + 3 * c3 * t ^ 2).
Proof.
  assert (H : derivable_pt_lim
                (fct_cte c0 + mult_real_fct c1 id
                 + mult_real_fct c2 (fun y => y ^ 2)
                 + mult_real_fct c3 (fun y => y ^ 3))%F t
                (0 + c1 * 1 + c2 * (INR 2 * t ^ Nat.pred 2)
                 + c3 * (INR 3 * t ^ Nat.pred 3))).
  { repeat apply derivable_pt_lim_plus.
    - apply derivable_pt_lim_const.
    - apply derivable_pt_lim_scal. apply derivable_pt_lim_id.
    - apply derivable_pt_lim_scal. apply derivable_pt_lim_pow.
    - apply derivable_pt_lim_scal. apply derivable_pt_lim_pow. }
  replace (c1 + 2 * c2 * t + 3 * c3 * t ^ 2)
    with (0 + c1 * 1 + c2 * (INR 2 * t ^ Nat.pred 2)
          + c3 * (INR 3 * t ^ Nat.pred 3))
    by (cbn [INR Nat.pred]; ring).
  apply (derivable_pt_lim_ext _ _ _ _ (fun z => eq_refl) H).
Qed.

(** The derivative of one coordinate of a Bezier piece. *)
Lemma bezier_derivative (a b c d t : R) :
  derivable_pt_lim
    (fun t => (1 - t) * (1 - t) * (1 - t) * a
              + 3 * ((1 - t) * (1 - t)) * t * b
              + 3 * (1 - t) * (t * t) * c + t * t * t * d) t
    (3 * ((1 - t) * (1 - t)) * (b - a) + 6 * (1 - t) * t * (c - b)
     + 3 * (t * t) * (d - c)).
Proof.
  pose proof (cubic_derivative a (3 * (b - a)) (3 * (a - 2 * b + c))
                (d - 3 * c + 3 * b - a) t) as H.
  replace (3 * ((1 - t) * (1 - t)) * (b - a) + 6 * (1 - t) * t * (c - b)
           + 3 * (t * t) * (d - c))
    with (3 * (b - a) + 2 * (3 * (a - 2 * b + c)) * t
          + 3 * (d - 3 * c + 3 * b - a) * t ^ 2) by ring.
  eapply derivable_pt_lim_ext; [| exact H].
  intros z. cbv beta. ring.
Qed.

Lemma getBezierPoint_dx (seg : BezierSeg) (t : R) :
  derivable_pt_lim (fun t => px (getBezierPoint seg t)) t
    (3 * ((1 - t) * (1 - t)) * (px (cp1 seg) - px (bp1 seg))
     + 6 * (1 - t) * t * (px (cp2 seg) - px (cp1 seg))
     + 3 * (t * t) * (px (bp2 seg) - px (cp2 seg))).
Proof. apply bezier_derivative. Qed.

Lemma getBezierPoint_dy (seg : BezierSeg) (t : R) :
  derivable_pt_lim (fun t => py (getBezierPoint seg t)) t
    (3 * ((1 - t) * (1 - t)) * (py (cp1 seg) - py (bp1 seg))
     + 6 * (1 - t) * t * (py (cp2 seg) - py (cp1 seg))
     + 3 * (t * t) * (py (bp2 seg) - py (cp2 seg))).
Proof. apply bezier_derivative. Qed.

Lemma getBezierPoint_ends (seg : BezierSeg) :
  getBezierPoint seg 0 = bp1 seg /\ getBezierPoint seg 1 = bp2 seg.
Proof.
  unfold getBezierPoint.
  destruct (bp1 seg) as [x1 y1] eqn:H1. destruct (bp2 seg) as [x2 y2] eqn:H2.
  cbn [px py]. split; f_equal; ring.
Qed.

(** C6.  For every knot sequence of length at least 2, the spline
    object has one piece per pair of consecutive knots; piece [i] starts
    at [P_i] and ends at [P_(i+1)] (its [p1] and [p2], and the values of
    the curve at [t = 0] and [t = 1]); and where two pieces meet, the
    derivative of piece [i] at [t = 1] is the derivative of piece
    [i + 1] at [t = 0], in each coordinate. *)
Theorem C6_knots_and_C1 (points : list Point) :
  (2 <= length points)%nat ->
  let n := (length points - 1)%nat in
  let pieces := Spline.bezierPoints (Spline.new_CubicSpline points) in
  length pieces = n /\
  (forall i : nat, (i < n)%nat ->
     bp1 (pieces !!! i) = points !!! i /\
     bp2 (pieces !!! i) = points !!! (i + 1)%nat /\
     getBezierPoint (pieces !!! i) 0 = points !!! i /\
     getBezierPoint (pieces !!! i) 1 = points !!! (i + 1)%nat) /\
  (forall i : nat, (i + 1 < n)%nat ->
     exists vx vy : R,
       derivable_pt_lim (fun t => px (getBezierPoint (pieces !!! i) t)) 1 vx /\
       derivable_pt_lim
         (fun t => px (getBezierPoint (pieces !!! (i + 1)%nat) t)) 0 vx /\
       derivable_pt_lim (fun t => py (getBezierPoint (pieces !!! i) t)) 1 vy /\
       derivable_pt_lim
         (fun t => py (getBezierPoint (pieces !!! (i + 1)%nat) t)) 0 vy).
Proof.
  intros Hlen n pieces.
  destruct (new_CubicSpline_pieces points Hlen) as [Hlenp Hpieces].
  fold n pieces in Hlenp, Hpieces.
  split; [exact Hlenp |]. split.
  - intros i Hi.
    destruct (getBezierPoint_ends (pieces !!! i)) as [H0 H1].
    rewrite H0, H1, (Hpieces i Hi). cbn [bp1 bp2 piece_at]. auto.
  - intros i Hi.
    exists (Spline.tangents px points !!! (i + 1)%nat),
           (Spline.tangents py points !!! (i + 1)%nat).
    pose proof (getBezierPoint_dx (pieces !!! i) 1) as Hx1.
    pose proof (getBezierPoint_dx (pieces !!! (i + 1)%nat) 0) as Hx0.
    pose proof (getBezierPoint_dy (pieces !!! i) 1) as Hy1.
    pose proof (getBezierPoint_dy (pieces !!! (i + 1)%nat) 0) as Hy0.
    rewrite (Hpieces i ltac:(lia)) in Hx1, Hy1 |- *.
    rewrite (Hpieces (i + 1)%nat ltac:(lia)) in Hx0, Hy0 |- *.
    cbn [bp1 bp2 cp1 cp2 piece_at px py] in Hx1, Hx0, Hy1, Hy0.
    repeat split.
    + eapply derivable_pt_lim_ext_value; [exact Hx1 | field].
    + eapply derivable_pt_lim_ext_value; [exact Hx0 | field].
    + eapply derivable_pt_lim_ext_value; [exact Hy1 | field].
    + eapply derivable_pt_lim_ext_value; [exact Hy0 | field].
Qed.

Lemma C6_knots_and_C1_witness :
  let points := [mkPoint 0 0; mkPoint 1 2; mkPoint 3 1] in
  let pieces := Spline.bezierPoints (Spline.new_CubicSpline points) in
  length pieces = 2%nat /\
  getBezierPoint (pieces !!! 0%nat) 1 = mkPoint 1 2 /\
  exists vx vy : R,
    derivable_pt_lim (fun t => px (getBezierPoint (pieces !!! 0%nat) t)) 1 vx /\
    derivable_pt_lim (fun t => px (getBezierPoint (pieces !!! 1%nat) t)) 0 vx /\
    derivable_pt_lim (fun t => py (getBezierPoint (pieces !!! 0%nat) t)) 1 vy /\
    derivable_pt_lim (fun t => py (getBezierPoint (pieces !!! 1%nat) t)) 0 vy.
Proof.
  cbv zeta.
  destruct (C6_knots_and_C1 [mkPoint 0 0; mkPoint 1 2; mkPoint 3 1])
    as (Hlen & Hknots & Hc1).
  - cbn. lia.
  - split; [exact Hlen |]. split.
    + exact (proj2 (proj2 (proj2 (Hknots 0%nat ltac:(cbn; lia))))).
    + exact (Hc1 0%nat ltac:(cbn; lia)).
Defined.

(** * Further properties of the numerics *)

(** ** Flattening an edge *)

Lemma insert_by_y_perm (p : Point) (l : list Point) :
  Permutation (p :: l) (insert_by_y p l).
Proof.
  induction l as [| q l IH]; cbn [insert_by_y].
  - reflexivity.
  - destruct (decide (py p - py q <= 0)).
    + reflexivity.
    + rewrite perm_swap. apply perm_skip. exact IH.
Qed.

Lemma insert_by_y_ascending (p : Point) (l : list Point) :
  ascending l -> ascending (insert_by_y p l).
Proof.
  unfold ascending. induction l as [| q l IH]; intros Hl; cbn [insert_by_y].
  - repeat constructor.
  - inversion Hl as [| q' l' Hl' Hq]; subst.
    destruct (decide (py p - py q <= 0)) as [Hle | Hgt].
    + constructor; [exact Hl |].
      constructor; [lra |].
      eapply Forall_impl; [exact Hq |]. cbv beta. intros r Hr. lra.
    + constructor; [apply IH; exact Hl' |].
      rewrite <- (insert_by_y_perm p l).
      constructor; [lra | exact Hq].
Qed.

Lemma sort_by_y_perm (l : list Point) : Permutation l (sort_by_y l).
Proof.
  induction l as [| p l IH]; cbn [sort_by_y fold_right].
  - reflexivity.
  - rewrite <- insert_by_y_perm. apply perm_skip. exact IH.
Qed.

Lemma sort_by_y_ascending (l : list Point) : ascending (sort_by_y l).
Proof.
  induction l as [| p l IH]; cbn [sort_by_y fold_right].
  - constructor.
  - apply insert_by_y_ascending. exact IH.
Qed.

Lemma ascending_lookup (samples : list Point) (i j : nat) :
  ascending samples -> (i <= j < length samples)%nat ->
  py (samples !!! i) <= py (samples !!! j).
Proof.
  unfold ascending. intros Hs. revert i j.
  induction Hs as [| p l Hl IH Hp]; intros i j Hij.
  - cbn in Hij. lia.
  - destruct i as [| i], j as [| j]; cbn [lookup_total list_lookup_total].
    + lra.
    + rewrite Forall_forall in Hp. apply Hp.
      apply list_elem_of_lookup_total_2.
      cbn [length] in Hij. lia.
    + lia.
    + apply IH. cbn [length] in Hij. lia.
Qed.

(** X1.  [sampleSegments] returns the samples of all the segments of
    the edge, each as often as it was produced, in ascending order of
    the span coordinate. *)
Theorem X1_sampleSegments_sorted (segments : list Shape)
    (tr : Point -> Point) :
  let pooled := flat_map (fun shape => sampleShape shape tr) segments in
  let samples := sampleSegments segments tr in
  Permutation pooled samples /\
  length samples = length pooled /\
  ascending samples /\
  (forall i j : nat, (i <= j < length samples)%nat ->
     py (samples !!! i) <= py (samples !!! j)).
Proof.
  intros pooled samples. unfold samples, sampleSegments. fold pooled.
  pose proof (sort_by_y_perm pooled) as Hperm.
  pose proof (sort_by_y_ascending pooled) as Hasc.
  split; [exact Hperm |]. split; [symmetry; apply Permutation_length, Hperm |].
  split; [exact Hasc |].
  intros i j Hij. apply ascending_lookup; assumption.
Qed.

(** ** Sampling a spline segment *)

Lemma flat_map_blocks {A : Type} `{Inhabited A} (f : BezierSeg -> list A)
    (m : nat) (l : list BezierSeg) :
  (forall seg, length (f seg) = m) ->
  length (flat_map f l) = (m * length l)%nat /\
  forall i j : nat, (i < length l)%nat -> (j < m)%nat ->
    flat_map f l !!! (m * i + j)%nat = f (l !!! i) !!! j.
Proof.
  intros Hm. induction l as [| seg l [IHlen IHlook]]; cbn [flat_map length].
  - split; [lia |]. intros i j Hi. lia.
  - split; [rewrite length_app, Hm, IHlen; lia |].
    intros i j Hi Hj. destruct i as [| i].
    + rewrite Nat.mul_0_r, Nat.add_0_l.
      rewrite lookup_total_app_l by (rewrite Hm; exact Hj). reflexivity.
    + rewrite lookup_total_app_r by (rewrite Hm; lia).
      rewrite Hm. replace (m * S i + j - m)%nat with (m * i + j)%nat by lia.
      cbn [lookup_total list_lookup_total]. apply IHlook; lia.
Qed.

Lemma spline_samples_blocks (points : list Point) (tr : Point -> Point) :
  (2 <= length points)%nat ->
  let n := (length points - 1)%nat in
  let samples := sampleShape (createShapeFromPoints SPLINE points) tr in
  length samples = (11 * n)%nat /\
  forall i : nat, (i < n)%nat ->
    samples !!! (11 * i)%nat = tr (points !!! i) /\
    samples !!! (11 * i + 10)%nat = tr (points !!! (i + 1)%nat).
Proof.
  intros Hlen n samples.
  destruct (new_CubicSpline_pieces points Hlen) as [Hlenp Hpieces].
  fold n in Hlenp, Hpieces.
  unfold samples, createShapeFromPoints, sampleShape.
  cbn [shape_type shape_bezierPoints].
  destruct (decide (SPLINE = LINE)) as [Heq | _]; [discriminate |].
  set (f := fun seg : BezierSeg =>
              map (fun i : nat => tr (getBezierPoint seg (INR i / 10)))
                  (seq 0 11)).
  destruct (flat_map_blocks f 11
              (Spline.bezierPoints (Spline.new_CubicSpline points)))
    as [Hl Hlook].
  { intros seg. unfold f. rewrite length_map, length_seq. reflexivity. }
  rewrite Hlenp in Hl, Hlook.
  split; [exact Hl |].
  intros i Hi.
  pose proof (Hlook i 0%nat Hi ltac:(lia)) as H0.
  pose proof (Hlook i 10%nat Hi ltac:(lia)) as H10.
  rewrite Nat.add_0_r in H0. rewrite H0, H10.
  destruct (getBezierPoint_ends
              (Spline.bezierPoints (Spline.new_CubicSpline points) !!! i))
    as [He0 He1].
  rewrite (Hpieces i Hi) in He0, He1 |- *.
  unfold f. cbn [map seq lookup_total list_lookup_total].
  replace (INR 0 / 10) with 0 by (cbn [INR]; lra).
  replace (INR 10 / 10) with 1 by (cbn [INR]; lra).
  rewrite He0, He1. split; reflexivity.
Qed.

(** X2.  Sampling the spline segment made of at least 2 knots gives 11
    samples for each pair of consecutive knots; the first of the 11 is
    the transformed knot [P_i] and the last is the transformed knot
    [P_(i+1)], so every knot is among the samples. *)
Theorem X2_spline_samples (points : list Point) (tr : Point -> Point) :
  (2 <= length points)%nat ->
  let n := (length points - 1)%nat in
  let samples := sampleShape (createShapeFromPoints SPLINE points) tr in
  length samples = (11 * n)%nat /\
  forall i : nat, (i < n)%nat ->
    samples !!! (11 * i)%nat = tr (points !!! i) /\
    samples !!! (11 * i + 10)%nat = tr (points !!! (i + 1)%nat).
Proof. exact (spline_samples_blocks points tr). Qed.

Lemma X2_spline_samples_witness :
  let points := [mkPoint 0 0; mkPoint 1 2; mkPoint 3 1] in
  let samples := sampleShape (createShapeFromPoints SPLINE points)
                             (fun p => p) in
  length samples = 22%nat /\
  samples !!! 11%nat = mkPoint 1 2 /\
  samples !!! 10%nat = mkPoint 1 2.
Proof.
  cbv zeta.
  destruct (X2_spline_samples [mkPoint 0 0; mkPoint 1 2; mkPoint 3 1]
              (fun p => p)) as [Hlen Hknots].
  - cbn. lia.
  - split; [exact Hlen |]. split.
    + exact (proj1 (Hknots 1%nat ltac:(cbn; lia))).
    + exact (proj2 (Hknots 0%nat ltac:(cbn; lia))).
Defined.

(** ** Interpolation at and between samples *)

(** X3.  On a profile of at least 2 samples sorted ascending by span,
    the query at the first sample's span value returns the first
    sample's chord value; and on a profile of at least 2 samples whose
    last span value is strictly above all the others, the query at the
    last sample's span value returns the last sample's chord value. *)
Theorem X3_interpolateX_boundaries (samples : list Point) :
  (2 <= length samples)%nat ->
  let first := samples !!! 0%nat in
  let last := samples !!! (length samples - 1)%nat in
  (ascending samples -> interpolateX samples (py first) = px first) /\
  ((forall i : nat, (i < length samples - 1)%nat ->
      py (samples !!! i) < py last) ->
   interpolateX samples (py last) = px last).
Proof.
  intros Hlen first last. split.
  - intros Hasc.
    assert (H01 : py first <= py (samples !!! 1%nat))
      by (apply ascending_lookup; [exact Hasc | lia]).
    assert (H0l : py first <= py last)
      by (apply ascending_lookup; [exact Hasc | lia]).
    destruct (interpolate_scan_first_bracket samples (py first) Hlen
                ltac:(fold first; lra) H0l)
      as (i & Hi & Hbr & Hfirst & Hscan).
    rewrite interpolateX_in_range by (fold first last; lra).
    rewrite Hscan.
    assert (Hi0 : i = 0%nat).
    { destruct i as [| i]; [reflexivity |]. exfalso.
      apply (Hfirst 0%nat ltac:(lia)). split; fold first; [lra | exact H01]. }
    subst i. unfold lerp_at. cbn [Nat.add]. fold first.
    destruct (decide (py (samples !!! 1%nat) - py first = 0)) as [H0 | Hne];
      [reflexivity |].
    field. exact Hne.
  - intros Hstrict.
    assert (H0l : py first < py last) by (apply Hstrict; lia).
    destruct (interpolate_scan_first_bracket samples (py last) Hlen
                ltac:(fold first; lra) ltac:(fold last; lra))
      as (i & Hi & [Hb1 Hb2] & _ & Hscan).
    rewrite interpolateX_in_range by (fold first last; lra).
    rewrite Hscan.
    assert (Hil : (i + 1)%nat = (length samples - 1)%nat).
    { destruct (decide ((i + 1)%nat = (length samples - 1)%nat)) as [He | Hne];
        [exact He |]. exfalso.
      pose proof (Hstrict (i + 1)%nat ltac:(lia)). lra. }
    pose proof (Hstrict i ltac:(lia)) as Hlt.
    unfold lerp_at. rewrite Hil. fold last.
    destruct (decide (py last - py (samples !!! i) = 0)) as [H0 | Hne]; [lra |].
    field. exact Hne.
Qed.

Lemma X3_interpolateX_boundaries_witness :
  interpolateX taper_TE 0 = 2 /\ interpolateX taper_TE 10 = 1.
Proof.
  destruct (X3_interpolateX_boundaries taper_TE ltac:(cbn; lia)) as [Hf Hl].
  split.
  - apply Hf. unfold taper_TE, ascending.
    repeat constructor. cbn [py]. lra.
  - apply Hl. intros i Hi. unfold taper_TE in *. cbn [length Nat.sub] in Hi.
    assert (i = 0%nat) as -> by lia. eval_lookup. lra.
Defined.



(** ** What a returned result tells *)

Lemma for_y_short {St : Type} (body : St -> R -> St) (minY maxY dy : R) :
  0 < dy -> maxY = grid minY dy 1000 ->
  forall (n j : nat) (st : St) (fuel : nat),
    (j + n = 1001)%nat -> (fuel <= n)%nat ->
    for_y fuel maxY dy body (grid minY dy j) st = None.
Proof.
  intros Hdy Hmax. induction n as [| n IH]; intros j st fuel Hj Hfuel.
  - destruct fuel; [reflexivity | lia].
  - destruct fuel as [| fuel]; [reflexivity |]. cbn [for_y].
    destruct (decide (grid minY dy j <= maxY)) as [_ | Hgt].
    + rewrite grid_S. apply IH; lia.
    + exfalso. apply Hgt. subst maxY. unfold grid.
      assert (Hle : INR j <= INR 1000) by (apply le_INR; lia).
      nra.
Qed.

Lemma for_y_some_fuel {St : Type} (body : St -> R -> St)
    (minY maxY : R) (fuel : nat) (st st' : St) :
  minY < maxY ->
  for_y fuel maxY ((maxY - minY) / 1000) body minY st = Some st' ->
  (1002 <= fuel)%nat.
Proof.
  intros Hlt Hrun. destruct (le_lt_dec fuel 1001) as [Hle | Hgt]; [| lia].
  rewrite <- (grid_0 minY ((maxY - minY) / 1000)) in Hrun at 2.
  rewrite (for_y_short body minY maxY ((maxY - minY) / 1000)
             ltac:(lra) (eq_sym (grid_last minY maxY)) 1001 0 st fuel)
    in Hrun by lia.
  discriminate.
Qed.

Lemma sum_f_R0_pos_term (f : nat -> R) (N : nat) :
  (forall k, 0 <= f k) -> 0 < sum_f_R0 f N ->
  exists k : nat, (k <= N)%nat /\ 0 < f k.
Proof.
  intros Hnn. induction N as [| N IH]; cbn [sum_f_R0]; intros Hpos.
  - exists 0%nat. split; [lia | exact Hpos].
  - destruct (Rlt_le_dec 0 (f (S N))) as [Hlast | Hlast].
    + exists (S N). split; [lia | exact Hlast].
    + destruct IH as (k & Hk & Hfk); [lra |].
      exists k. split; [lia | exact Hfk].
Qed.

Lemma sum_f_R0_ge_term (f : nat -> R) (N k : nat) :
  (forall j, 0 <= f j) -> (k <= N)%nat -> f k <= sum_f_R0 f N.
Proof.
  intros Hnn. induction N as [| N IH]; cbn [sum_f_R0]; intros Hk.
  - assert (k = 0%nat) as -> by lia. lra.
  - destruct (decide (k = S N)) as [-> | Hne].
    + pose proof (cond_pos_sum f N Hnn). lra.
    + specialize (IH ltac:(lia)). specialize (Hnn (S N)). lra.
Qed.

(** A call that returns went through both loops with a positive step. *)
Lemma calculate_samples_success (fuel : nat) (LE TE : list Point)
    (angle : R) (o : Point) (w : R) (r : MACResult) :
  calculate_samples fuel LE TE angle o w = Return r ->
  let minY := Rmax (getMinY LE) (getMinY TE) in
  let maxY := Rmin (getMaxY LE) (getMaxY TE) in
  let dy := (maxY - minY) / 1000 in
  let A := area_sum LE TE minY dy in
  let M := moment_sum LE TE minY dy in
  let Q := chord_sq_sum LE TE minY dy in
  let scale := (w / 2) / Rmax (getMaxDist LE) (getMaxDist TE) in
  (2 <= length LE)%nat /\ (2 <= length TE)%nat /\
  minY < maxY /\ (1002 <= fuel)%nat /\ 0 < A /\
  exists best : Best,
    locate fuel LE TE minY maxY dy (Q / A) (M / A) = Some best /\
    r = mkMACResult (Q / A * scale)
          (A * (scale * scale) * (if decide (minY * maxY < 0) then 1 else 2))
          (Q / A) (visual_Y best) (interpolateX LE (visual_Y best))
          scale angle o.
Proof.
  intros Hcalc minY maxY dy A M Q scale.
  destruct (calculate_samples_inv fuel LE TE angle o w r Hcalc)
    as (HLE & HTE & Hdy & sums & best & Hint & Harea & Hloc & Hr).
  fold minY maxY dy scale in Hdy, Hint, Hloc, Hr.
  assert (Hlt : minY < maxY).
  { destruct (Rlt_le_dec minY maxY) as [Hlt | Hge]; [exact Hlt |].
    exfalso. assert (Hcross : maxY < minY) by (unfold dy in Hdy; lra).
    destruct fuel as [| fuel]; [discriminate |].
    rewrite (integrate_crossed LE TE minY maxY dy (S fuel) Hcross
               ltac:(lia)) in Hint.
    injection Hint as <-. apply Harea. reflexivity. }
  assert (Hfuel : (1002 <= fuel)%nat).
  { unfold integrate in Hint. eapply for_y_some_fuel; [exact Hlt | exact Hint]. }
  pose proof (integrate_positive_step LE TE minY maxY fuel Hlt Hfuel) as Hint'.
  cbv zeta in Hint'. fold dy A M Q in Hint'.
  rewrite Hint' in Hint. injection Hint as <-.
  cbn [area moment_y integral_c_sq] in Harea, Hloc, Hr.
  assert (HA : 0 < A).
  { assert (0 <= A).
    { unfold A, area_sum. apply cond_pos_sum. intros k.
      apply Rmult_le_pos; [apply chord_at_nonneg | unfold dy; lra]. }
    lra. }
  repeat (split; [assumption |]).
  exists best. split; assumption.
Qed.

Lemma chord_sq_sum_positive (LE TE : list Point) (minY dy : R) :
  0 < dy -> 0 < area_sum LE TE minY dy -> 0 < chord_sq_sum LE TE minY dy.
Proof.
  intros Hdy HA. unfold area_sum in HA.
  destruct (sum_f_R0_pos_term
              (fun k => chord_at LE TE (grid minY dy k) * dy) 1000)
    as (k & Hk & Hck); [| exact HA |].
  { intros j. apply Rmult_le_pos; [apply chord_at_nonneg | lra]. }
  assert (Hc : 0 < chord_at LE TE (grid minY dy k)).
  { pose proof (chord_at_nonneg LE TE (grid minY dy k)). nra. }
  unfold chord_sq_sum.
  apply Rlt_le_trans
    with (chord_at LE TE (grid minY dy k) * chord_at LE TE (grid minY dy k) * dy).
  - apply Rmult_lt_0_compat; [apply Rmult_lt_0_compat; assumption | exact Hdy].
  - apply (sum_f_R0_ge_term
             (fun j => chord_at LE TE (grid minY dy j)
                       * chord_at LE TE (grid minY dy j) * dy) 1000 k);
      [| exact Hk].
    intros j. pose proof (chord_at_nonneg LE TE (grid minY dy j)).
    apply Rmult_le_pos; [apply Rmult_le_pos; assumption | lra].
Qed.

(** X5.  Whenever the call on two sampled profiles returns a result,
    the two span intervals overlap in more than a point
    ([minY < maxY]), [MAC_pixels] is strictly positive, the reported
    span position [Y_mac_pixels] lies in [[minY, maxY]], and
    [X_le_mac_pixels] is the leading edge interpolated at that
    position. *)
Theorem X5_result_facts (fuel : nat) (LE TE : list Point)
    (angle : R) (o : Point) (w : R) (r : MACResult) :
  calculate_samples fuel LE TE angle o w = Return r ->
  let minY := Rmax (getMinY LE) (getMinY TE) in
  let maxY := Rmin (getMaxY LE) (getMaxY TE) in
  minY < maxY /\
  0 < MAC_pixels r /\
  minY <= Y_mac_pixels r <= maxY /\
  X_le_mac_pixels r = interpolateX LE (Y_mac_pixels r).
Proof.
  intros Hcalc minY maxY.
  destruct (calculate_samples_success fuel LE TE angle o w r Hcalc)
    as (_ & _ & Hlt & Hfuel & HA & best & Hloc & ->).
  fold minY maxY in Hlt, HA, Hloc |- *.
  cbn [MAC_pixels Y_mac_pixels X_le_mac_pixels].
  split; [exact Hlt |]. split; [| split; [| reflexivity]].
  - apply Rdiv_lt_0_compat; [| exact HA].
    apply chord_sq_sum_positive; [lra | exact HA].
  - destruct (locate_positive_step LE TE minY maxY
                (chord_sq_sum LE TE minY ((maxY - minY) / 1000)
                 / area_sum LE TE minY ((maxY - minY) / 1000))
                (moment_sum LE TE minY ((maxY - minY) / 1000)
                 / area_sum LE TE minY ((maxY - minY) / 1000))
                fuel Hlt Hfuel) as (best' & Hloc' & Hgrid).
    cbv zeta in Hloc'. rewrite Hloc in Hloc'. injection Hloc' as <-.
    apply located_in_span; assumption.
Qed.

Lemma X5_result_facts_witness :
  exists r : MACResult,
    calculate_samples 1002 taper_LE taper_TE 0 (mkPoint 0 0) 20 = Return r /\
    0 < MAC_pixels r /\
    X_le_mac_pixels r = interpolateX taper_LE (Y_mac_pixels r).
Proof.
  destruct taper_returns as [r Hr]. exists r. split; [exact Hr |].
  destruct (X5_result_facts 1002 taper_LE taper_TE 0 (mkPoint 0 0) 20 r Hr)
    as (_ & Hpos & _ & Hx).
  split; [exact Hpos | exact Hx].
Defined.

Lemma interpolateX_pair (x0 y0 x1 y1 y : R) :
  y0 < y1 -> y0 <= y <= y1 ->
  interpolateX [mkPoint x0 y0; mkPoint x1 y1] y
    = x0 + (y - y0) / (y1 - y0) * (x1 - x0).
Proof.
  intros Hlt [Hlo Hhi]. rewrite interpolateX_in_range by (cbn; lra).
  cbn [interpolate_scan py px].
  destruct (decide (y0 <= y /\ y1 >= y)) as [_ | Hn].
  - destruct (decide (y1 - y0 = 0)) as [H0 | Hne]; [lra | reflexivity].
  - exfalso. apply Hn. lra.
Qed.

Lemma port_chord_everywhere (y : R) :
  -10 <= y <= -5 -> chord_at port_LE port_TE y = 2.
Proof.
  intros Hy. unfold chord_at, port_LE, port_TE.
  rewrite !interpolateX_pair by lra.
  replace (2 + (y - -10) / (-5 - -10) * (2 - 2)
           - (0 + (y - -10) / (-5 - -10) * (0 - 0))) with 2 by (field; lra).
  apply Rabs_right. lra.
Qed.

Lemma port_returns :
  exists r : MACResult,
    calculate_samples 1002 port_LE port_TE 0 (mkPoint 0 0) 20 = Return r.
Proof.
  destruct port_bounds as [Hmin Hmax].
  destruct (calculate_samples_returns 1002 port_LE port_TE 0 (mkPoint 0 0)
              20) as (best & _ & _ & Hret).
  - cbn. lia.
  - cbn. lia.
  - rewrite Hmin, Hmax. lra.
  - lia.
  - rewrite Hmin, Hmax. apply Rgt_not_eq.
    apply area_sum_positive; [lra | rewrite port_chord; lra].
  - eexists. exact Hret.
Qed.

(** X6.  Whenever the call returns a result and the local chord at each
    of the 1001 positions of the loop lies between [lo] and [hi],
    [MAC_pixels] lies between [lo] and [hi]; in particular a wing of
    constant chord [c] has [MAC_pixels = c]. *)
Theorem X6_MAC_between_chords (fuel : nat) (LE TE : list Point)
    (angle : R) (o : Point) (w : R) (r : MACResult) (lo hi : R) :
  calculate_samples fuel LE TE angle o w = Return r ->
  let minY := Rmax (getMinY LE) (getMinY TE) in
  let maxY := Rmin (getMaxY LE) (getMaxY TE) in
  let dy := (maxY - minY) / 1000 in
  (forall k : nat, (k <= 1000)%nat ->
     lo <= chord_at LE TE (grid minY dy k) <= hi) ->
  lo <= MAC_pixels r <= hi.
Proof.
  intros Hcalc minY maxY dy Hbounds.
  destruct (calculate_samples_success fuel LE TE angle o w r Hcalc)
    as (_ & _ & Hlt & _ & HA & best & _ & ->).
  fold minY maxY dy in Hlt, HA. cbn [MAC_pixels]. fold minY maxY dy.
  set (A := area_sum LE TE minY dy) in *.
  set (Q := chord_sq_sum LE TE minY dy).
  assert (Hdy : 0 < dy) by (unfold dy; lra).
  assert (Hlo : lo * A <= Q).
  { unfold A, Q, area_sum, chord_sq_sum. rewrite scal_sum.
    apply sum_Rle. intros k Hk.
    destruct (Hbounds k Hk) as [Hl _].
    pose proof (chord_at_nonneg LE TE (grid minY dy k)) as Hc.
    set (c := chord_at LE TE (grid minY dy k)) in *.
    assert (Hu : 0 <= c * dy) by (apply Rmult_le_pos; lra).
    pose proof (Rmult_le_pos (c * dy) (c - lo) Hu ltac:(lra)). lra. }
  assert (Hhi : Q <= hi * A).
  { unfold A, Q, area_sum, chord_sq_sum. rewrite scal_sum.
    apply sum_Rle. intros k Hk.
    destruct (Hbounds k Hk) as [_ Hh].
    pose proof (chord_at_nonneg LE TE (grid minY dy k)) as Hc.
    set (c := chord_at LE TE (grid minY dy k)) in *.
    assert (Hu : 0 <= c * dy) by (apply Rmult_le_pos; lra).
    pose proof (Rmult_le_pos (c * dy) (hi - c) Hu ltac:(lra)). lra. }
  split.
  - apply Rmult_le_reg_r with A; [exact HA |].
    unfold Rdiv. rewrite Rmult_assoc, Rinv_l by lra. lra.
  - apply Rmult_le_reg_r with A; [exact HA |].
    unfold Rdiv. rewrite Rmult_assoc, Rinv_l by lra. lra.
Qed.

Lemma X6_MAC_between_chords_witness :
  exists r : MACResult,
    calculate_samples 1002 port_LE port_TE 0 (mkPoint 0 0) 20 = Return r /\
    2 <= MAC_pixels r <= 2.
Proof.
  destruct port_returns as [r Hr]. exists r. split; [exact Hr |].
  apply (X6_MAC_between_chords 1002 port_LE port_TE 0 (mkPoint 0 0) 20 r 2 2 Hr).
  intros k Hk. destruct port_bounds as [Hmin Hmax]. rewrite Hmin, Hmax.
  rewrite port_chord_everywhere; [lra |].
  unfold grid.
  assert (H0 : 0 <= INR k) by apply pos_INR.
  assert (H1 : INR k <= INR 1000) by (apply le_INR; exact Hk).
  rewrite INR_1000 in H1. lra.
Defined.

(** ** The reporting position *)




(** ** Real-world units *)

(** X8.  Whenever the call returns a result for a positive wingspan,
    the scale factor, the real MAC and the real area are strictly
    positive. *)
Theorem X8_positive_results (fuel : nat) (LE TE : list Point)
    (angle : R) (o : Point) (realWingspan : R) (r : MACResult) :
  calculate_samples fuel LE TE angle o realWingspan = Return r ->
  0 < realWingspan ->
  0 < scaleFactor r /\ 0 < MAC r /\ 0 < Area r.
Proof.
  intros Hcalc Hw.
  destruct (calculate_samples_success fuel LE TE angle o realWingspan r Hcalc)
    as (HLE & HTE & Hlt & _ & HA & best & _ & ->).
  cbn [scaleFactor MAC Area].
  set (minY := Rmax (getMinY LE) (getMinY TE)) in *.
  set (maxY := Rmin (getMaxY LE) (getMaxY TE)) in *.
  assert (Hmax : 0 < Rmax (getMaxDist LE) (getMaxDist TE)).
  { apply maxDist_positive; try assumption. fold minY maxY. lra. }
  assert (Hscale : 0 < realWingspan / 2 / Rmax (getMaxDist LE) (getMaxDist TE)).
  { apply Rdiv_lt_0_compat; lra. }
  assert (HQ : 0 < chord_sq_sum LE TE minY ((maxY - minY) / 1000))
    by (apply chord_sq_sum_positive; [lra | exact HA]).
  split; [exact Hscale |]. split.
  - apply Rmult_lt_0_compat; [| exact Hscale].
    apply Rdiv_lt_0_compat; assumption.
  - apply Rmult_lt_0_compat.
    + apply Rmult_lt_0_compat; [exact HA |].
      apply Rmult_lt_0_compat; exact Hscale.
    + destruct (decide (minY * maxY < 0)); lra.
Qed.

Lemma X8_positive_results_witness :
  exists r : MACResult,
    calculate_samples 1002 taper_LE taper_TE 0 (mkPoint 0 0) 20 = Return r /\
    0 < scaleFactor r /\ 0 < MAC r /\ 0 < Area r.
Proof.
  destruct taper_returns as [r Hr]. exists r. split; [exact Hr |].
  apply (X8_positive_results 1002 taper_LE taper_TE 0 (mkPoint 0 0) 20 r Hr).
  lra.
Defined.

(** * Further properties of the spline fitter *)

(** ** The solver on diagonally dominant systems *)

Section Dominant.
Variables a b c d : list R.

Local Abbreviation n := (length d).

Hypothesis Hfirst : Rabs (c !!! 0%nat) < Rabs (b !!! 0%nat).
Hypothesis Hinner : forall i : nat, (1 <= i < n - 1)%nat ->
  Rabs (a !!! i) + Rabs (c !!! i) < Rabs (b !!! i).
Hypothesis Hlast : Rabs (a !!! (n - 1)%nat) < Rabs (b !!! (n - 1)%nat).




End Dominant.



(** X10.  The solver returns a vector as long as the right-hand side
    for all inputs: the empty vector for an empty system and
    [d_0 / b_0] for a system of one row. *)
Theorem X10_thomas_small (a b c d : list R) (d0 : R) :
  length (Spline.thomasAlgorithm a b c d) = length d /\
  Spline.thomasAlgorithm a b c [] = [] /\
  Spline.thomasAlgorithm a b c [d0] = [d0 / b !!! 0%nat].
Proof.
  split; [| split; reflexivity].
  destruct d as [| d1 d'].
  - reflexivity.
  - unfold Spline.thomasAlgorithm.
    destruct (Spline.forward a b c (d1 :: d')) as [cP dP].
    exact (proj1 (backward_spec (d1 :: d') cP dP ltac:(cbn; lia))).
Qed.

(** ** Two knots *)

(** X11.  The spline through two knots is the straight segment between
    them: it has one Bezier piece, and the point of that piece at
    parameter [t] is [P_0 + t (P_1 - P_0)]. *)
Theorem X11_two_knots_straight (P0 P1 : Point) (t : R) :
  exists seg : BezierSeg,
    Spline.bezierPoints (Spline.new_CubicSpline [P0; P1]) = [seg] /\
    getBezierPoint seg t
      = mkPoint (px P0 + t * (px P1 - px P0)) (py P0 + t * (py P1 - py P0)).
Proof.
  destruct (new_CubicSpline_pieces [P0; P1] ltac:(cbn; lia)) as [Hlen Hp].
  cbn [length Nat.sub] in Hlen, Hp. specialize (Hp 0%nat ltac:(lia)).
  destruct (Spline.bezierPoints (Spline.new_CubicSpline [P0; P1]))
    as [| seg [| seg' rest]]; cbn [length] in Hlen; try lia.
  exists seg. split; [reflexivity |].
  change ([seg] !!! 0%nat) with seg in Hp. rewrite Hp.
  destruct (tangents_rows px [P0; P1] ltac:(cbn; lia)) as (_ & Hx0 & _ & Hx1).
  destruct (tangents_rows py [P0; P1] ltac:(cbn; lia)) as (_ & Hy0 & _ & Hy1).
  cbn [length Nat.sub lookup_total list_lookup_total] in Hx0, Hx1, Hy0, Hy1.
  unfold getBezierPoint, piece_at.
  cbn [bp1 bp2 cp1 cp2 px py Nat.add lookup_total list_lookup_total].
  set (dx0 := Spline.tangents px [P0; P1] !!! 0%nat) in *.
  set (dx1 := Spline.tangents px [P0; P1] !!! 1%nat) in *.
  set (dy0 := Spline.tangents py [P0; P1] !!! 0%nat) in *.
  set (dy1 := Spline.tangents py [P0; P1] !!! 1%nat) in *.
  assert (Hdx0 : dx0 = px P1 - px P0) by lra.
  assert (Hdx1 : dx1 = px P1 - px P0) by lra.
  assert (Hdy0 : dy0 = py P1 - py P0) by lra.
  assert (Hdy1 : dy1 = py P1 - py P0) by lra.
  rewrite Hdx0, Hdx1, Hdy0, Hdy1. f_equal; field.
Qed.

(** * Further properties of the coordinate frame *)

(** X12.  The transform commutes with the evaluation of a Bezier piece:
    the transformed curve point is the curve point of the piece whose
    four points are transformed. *)
Theorem X12_transform_bezier (sym : SymmetryLine) (seg : BezierSeg) (t : R) :
  transform sym (getBezierPoint seg t)
    = getBezierPoint (map_piece (transform sym) seg) t.
Proof.
  unfold transform, getBezierPoint, map_piece.
  cbn [bp1 bp2 cp1 cp2 px py].
  set (a := atan2 _ _). set (c := cos (- a)). set (s := sin (- a)).
  f_equal; ring.
Qed.

Lemma transform_dist2 (sym : SymmetryLine) (p q : Point) :
  dist2 (transform sym p) (transform sym q) = dist2 p q /\
  transform sym (p1 sym) = mkPoint 0 0.
Proof.
  unfold transform, dist2. cbn [px py].
  set (a := atan2 _ _).
  pose proof (sin_cos_one (- a)) as H1.
  set (c := cos (- a)) in *. set (s := sin (- a)) in *.
  split.
  - transitivity (((px p - px q) * (px p - px q)
                   + (py p - py q) * (py p - py q)) * (s * s + c * c));
      [ring | rewrite H1; ring].
  - f_equal; ring.
Qed.

(** X13.  The transform keeps distances and sends the first point of
    the symmetry line to the origin. *)
Theorem X13_transform_isometry (sym : SymmetryLine) (p q : Point) :
  dist2 (transform sym p) (transform sym q) = dist2 p q /\
  transform sym (p1 sym) = mkPoint 0 0.
Proof. exact (transform_dist2 sym p q). Qed.

Lemma sqrt_one_plus_ratio (x y : R) :
  0 < x -> sqrt (1 + (y / x)²) = sqrt (x * x + y * y) / x.
Proof.
  intros Hx.
  assert (Hr : 0 <= x * x + y * y) by nra.
  apply Rmult_eq_reg_r with x; [| lra].
  replace (sqrt (x * x + y * y) / x * x) with (sqrt (x * x + y * y))
    by (field; lra).
  rewrite <- (sqrt_square x) at 2 by lra.
  rewrite <- sqrt_mult.
  - f_equal. unfold Rsqr. field. lra.
  - unfold Rsqr. nra.
  - nra.
Qed.

Lemma atan_cos_sin (x y : R) :
  0 < x ->
  cos (atan (y / x)) = x / sqrt (x * x + y * y) /\
  sin (atan (y / x)) = y / sqrt (x * x + y * y).
Proof.
  intros Hx.
  assert (Hr : 0 < sqrt (x * x + y * y)) by (apply sqrt_lt_R0; nra).
  rewrite cos_atan, sin_atan, sqrt_one_plus_ratio by exact Hx.
  split; field; lra.
Qed.

Lemma atan2_cos_sin (y x : R) :
  x <> 0 \/ y <> 0 ->
  cos (atan2 y x) = x / sqrt (x * x + y * y) /\
  sin (atan2 y x) = y / sqrt (x * x + y * y).
Proof.
  intros Hne. unfold atan2.
  assert (Hr : 0 < sqrt (x * x + y * y)).
  { apply sqrt_lt_R0. destruct Hne; nra. }
  destruct (decide (0 < x)) as [Hpos | Hnpos].
  - apply atan_cos_sin. exact Hpos.
  - destruct (decide (x < 0)) as [Hneg | Hnneg].
    + destruct (atan_cos_sin (- x) (- y) ltac:(lra)) as [Hc Hs].
      replace (- y / - x) with (y / x) in Hc, Hs by (field; lra).
      replace (- x * - x + - y * - y) with (x * x + y * y) in Hc, Hs by ring.
      destruct (decide (0 <= y)).
      * rewrite neg_cos, neg_sin, Hc, Hs. split; field; lra.
      * unfold Rminus. rewrite cos_plus, sin_plus, cos_neg, sin_neg.
        rewrite cos_PI, sin_PI, Hc, Hs. split; field; lra.
    + assert (Hx0 : x = 0) by lra. subst x.
      assert (Hy0 : y <> 0) by (destruct Hne; [lra | assumption]).
      replace (0 * 0 + y * y) with (y * y) in * by ring.
      destruct (decide (0 < y)) as [Hy | Hny].
      * rewrite cos_PI2, sin_PI2, sqrt_square by lra. split; field; lra.
      * destruct (decide (y < 0)) as [Hy | Hny']; [| lra].
        rewrite cos_neg, sin_neg, cos_PI2, sin_PI2.
        replace (y * y) with (- y * - y) by ring.
        rewrite sqrt_square by lra. split; field; lra.
Qed.

(** X14.  For a symmetry line with distinct endpoints the transform
    lays the line on the first axis of the aligned frame: its second
    point goes to [(d, 0)] with [d] the length of the line, so the
    points of the symmetry line have span coordinate [0]. *)
Theorem X14_transform_axis (sym : SymmetryLine) :
  px (p2 sym) <> px (p1 sym) \/ py (p2 sym) <> py (p1 sym) ->
  transform sym (p2 sym) = mkPoint (sqrt (dist2 (p2 sym) (p1 sym))) 0.
Proof.
  intros Hne. unfold transform, dist2.
  set (dx := px (p2 sym) - px (p1 sym)).
  set (dy := py (p2 sym) - py (p1 sym)).
  assert (Hne' : dx <> 0 \/ dy <> 0).
  { unfold dx, dy. destruct Hne; [left | right]; lra. }
  destruct (atan2_cos_sin dy dx Hne') as [Hc Hs].
  rewrite cos_neg, sin_neg, Hc, Hs.
  assert (Hpos : 0 < dx * dx + dy * dy) by (destruct Hne'; nra).
  assert (Hr : 0 < sqrt (dx * dx + dy * dy)) by (apply sqrt_lt_R0; exact Hpos).
  pose proof (sqrt_sqrt (dx * dx + dy * dy) ltac:(lra)) as Hsq.
  set (r := sqrt (dx * dx + dy * dy)) in *.
  f_equal.
  - transitivity ((dx * dx + dy * dy) / r); [field; lra |].
    rewrite <- Hsq. field. lra.
  - field. lra.
Qed.

Lemma X14_transform_axis_witness :
  let sym := mkSymmetryLine (mkPoint 0 0) (mkPoint 0 1) in
  transform sym (p2 sym) = mkPoint (sqrt (dist2 (p2 sym) (p1 sym))) 0.
Proof.
  apply (X14_transform_axis (mkSymmetryLine (mkPoint 0 0) (mkPoint 0 1))).
  right. cbn [p1 p2 py]. lra.
Defined.

Lemma transform_invRotate_exact (sym : SymmetryLine) (r : MACResult)
    (x y : R) :
  rotationAngle r =
    atan2 (py (p2 sym) - py (p1 sym)) (px (p2 sym) - px (p1 sym)) ->
  origin r = p1 sym ->
  transform sym (Workflow.invRotate r x y) = mkPoint x y.
Proof.
  intros Hangle Horigin.
  unfold Workflow.invRotate, transform. cbn [px py].
  rewrite Hangle, Horigin, cos_neg, sin_neg.
  set (a := atan2 _ _).
  pose proof (sin_cos_one a) as H1.
  set (c := cos a) in *. set (s := sin a) in *.
  f_equal.
  - transitivity (x * (s * s + c * c)); [ring | rewrite H1; ring].
  - transitivity (y * (s * s + c * c)); [ring | rewrite H1; ring].
Qed.

(** X15.  Mapping a point of the aligned frame back with [invRotate]
    and then forward with the transform gives the point again, when the
    result carries the rotation angle and the origin of the symmetry
    line. *)
Theorem X15_transform_invRotate (sym : SymmetryLine) (r : MACResult)
    (x y : R) :
  rotationAngle r =
    atan2 (py (p2 sym) - py (p1 sym)) (px (p2 sym) - px (p1 sym)) ->
  origin r = p1 sym ->
  transform sym (Workflow.invRotate r x y) = mkPoint x y.
Proof. exact (transform_invRotate_exact sym r x y). Qed.

Lemma X15_transform_invRotate_witness :
  let sym := mkSymmetryLine (mkPoint 0 0) (mkPoint 0 1) in
  let r := mkMACResult 0 0 0 0 0 0 (atan2 (1 - 0) (0 - 0)) (mkPoint 0 0) in
  transform sym (Workflow.invRotate r 3 4) = mkPoint 3 4.
Proof.
  exact (X15_transform_invRotate
           (mkSymmetryLine (mkPoint 0 0) (mkPoint 0 1))
           (mkMACResult 0 0 0 0 0 0 (atan2 (1 - 0) (0 - 0)) (mkPoint 0 0))
           3 4 eq_refl eq_refl).
Defined.

(** * Properties of the viewport *)

(** X16.  With a nonzero zoom factor, [screenToWorld] and
    [worldToScreen] are inverse to each other. *)
Theorem X16_viewport_round_trip (t : CanvasManager.Viewport) (x y : R) :
  CanvasManager.vk t <> 0 ->
  (let s := CanvasManager.worldToScreen t x y in
   CanvasManager.screenToWorld t (px s) (py s) = mkPoint x y) /\
  (let q := CanvasManager.screenToWorld t x y in
   CanvasManager.worldToScreen t (px q) (py q) = mkPoint x y).
Proof.
  intros Hk. unfold CanvasManager.worldToScreen, CanvasManager.screenToWorld.
  cbn [px py]. split; f_equal; field; exact Hk.
Qed.

Lemma X16_viewport_round_trip_witness :
  let t := CanvasManager.mkViewport 10 20 2 in
  let s := CanvasManager.worldToScreen t 3 4 in
  CanvasManager.screenToWorld t (px s) (py s) = mkPoint 3 4.
Proof.
  refine (proj1 (X16_viewport_round_trip (CanvasManager.mkViewport 10 20 2)
                   3 4 _)).
  cbn [CanvasManager.vk]. lra.
Defined.

Lemma zoom_at_fixes_pointer (deltaY : R) (mouse : Point)
    (t : CanvasManager.Viewport) :
  CanvasManager.vk t <> 0 ->
  CanvasManager.vk (Controllers.zoom_at deltaY mouse t) <> 0 /\
  CanvasManager.screenToWorld (Controllers.zoom_at deltaY mouse t)
      (px mouse) (py mouse)
    = CanvasManager.screenToWorld t (px mouse) (py mouse).
Proof.
  intros Hk. unfold Controllers.zoom_at, CanvasManager.screenToWorld.
  cbn [px py CanvasManager.vx CanvasManager.vy CanvasManager.vk].
  set (z := exp ((if decide (deltaY < 0) then 1 else -1) * 0.1)).
  assert (Hz : z <> 0) by apply exp_neq_0.
  split; [nra |].
  f_equal; field; split; assumption.
Qed.

(** X17.  With a nonzero zoom factor, a wheel event keeps the point of
    the drawing under the pointer where it is, keeps the zoom factor
    nonzero, and a wheel step in followed by a wheel step out at the
    same pointer position restores the viewport. *)
Theorem X17_wheel_zoom (deltaIn deltaOut : R) (mouse : Point)
    (t : CanvasManager.Viewport) :
  CanvasManager.vk t <> 0 ->
  let t1 := Controllers.zoom_at deltaIn mouse t in
  CanvasManager.vk t1 <> 0 /\
  CanvasManager.screenToWorld t1 (px mouse) (py mouse)
    = CanvasManager.screenToWorld t (px mouse) (py mouse) /\
  (deltaIn < 0 -> 0 <= deltaOut ->
   Controllers.zoom_at deltaOut mouse t1 = t).
Proof.
  intros Hk t1.
  destruct (zoom_at_fixes_pointer deltaIn mouse t Hk) as [Hk1 Hfix].
  split; [exact Hk1 |]. split; [exact Hfix |].
  intros Hin Hout. unfold t1, Controllers.zoom_at, CanvasManager.screenToWorld.
  cbn [px py CanvasManager.vx CanvasManager.vy CanvasManager.vk].
  destruct (decide (deltaIn < 0)) as [_ | Hn]; [| contradiction].
  destruct (decide (deltaOut < 0)) as [Hc | _]; [lra |].
  assert (He : exp (1 * 0.1) * exp (-1 * 0.1) = 1).
  { rewrite <- exp_plus. replace (1 * 0.1 + -1 * 0.1) with 0 by lra.
    apply exp_0. }
  pose proof (exp_neq_0 (1 * 0.1)) as H1.
  pose proof (exp_neq_0 (-1 * 0.1)) as H2.
  set (e1 := exp (1 * 0.1)) in *. set (e2 := exp (-1 * 0.1)) in *.
  destruct t as [x y k]. cbn [CanvasManager.vx CanvasManager.vy
                               CanvasManager.vk] in *.
  f_equal.
  - transitivity (px mouse - (px mouse - x) * (e1 * e2));
      [field; repeat split; assumption | rewrite He; ring].
  - transitivity (py mouse - (py mouse - y) * (e1 * e2));
      [field; repeat split; assumption | rewrite He; ring].
  - transitivity (k * (e1 * e2)); [ring | rewrite He; ring].
Qed.

Lemma X17_wheel_zoom_witness :
  let t := CanvasManager.mkViewport 10 20 2 in
  Controllers.zoom_at 1 (mkPoint 5 6)
    (Controllers.zoom_at (-1) (mkPoint 5 6) t) = t.
Proof.
  refine (proj2 (proj2 (X17_wheel_zoom (-1) 1 (mkPoint 5 6)
                          (CanvasManager.mkViewport 10 20 2) _)) _ _).
  - cbn [CanvasManager.vk]. lra.
  - lra.
  - lra.
Defined.

Lemma onMouseMove_viewport (p : Point) (w : Controllers.WorkflowController) :
  CanvasManager.transform (canvas_of (Controllers.onMouseMove p w)) =
    (if Controllers.isDragging (Controllers.ic w) then
       let t := CanvasManager.transform (canvas_of w) in
       CanvasManager.mkViewport
         (CanvasManager.vx t
          + (px p - px (Controllers.lastMouse (Controllers.ic w))))
         (CanvasManager.vy t
          + (py p - py (Controllers.lastMouse (Controllers.ic w))))
         (CanvasManager.vk t)
     else CanvasManager.transform (canvas_of w)) /\
  Controllers.lastMouse (Controllers.ic (Controllers.onMouseMove p w)) =
    (if Controllers.isDragging (Controllers.ic w) then p
     else Controllers.lastMouse (Controllers.ic w)).
Proof.
  unfold Controllers.onMouseMove, canvas_of, Controllers.handleSnapping.
  destruct w as [[c m sm dragging lm] idx].
  destruct dragging; ui_proj; repeat case_decide; ui_proj; split; reflexivity.
Qed.

(** X18.  While the canvas is dragged (zoom factor nonzero), a mouse
    move pans the viewport so that the point of the drawing that was
    under the pointer at the last position is under the pointer at the
    new position; the zoom factor is unchanged and the new position is
    remembered. *)
Theorem X18_drag_pans (p : Point) (w : Controllers.WorkflowController) :
  Controllers.isDragging (Controllers.ic w) = true ->
  CanvasManager.vk (CanvasManager.transform (canvas_of w)) <> 0 ->
  let w' := Controllers.onMouseMove p w in
  let last := Controllers.lastMouse (Controllers.ic w) in
  CanvasManager.screenToWorld (CanvasManager.transform (canvas_of w'))
      (px p) (py p)
    = CanvasManager.screenToWorld (CanvasManager.transform (canvas_of w))
        (px last) (py last) /\
  CanvasManager.vk (CanvasManager.transform (canvas_of w'))
    = CanvasManager.vk (CanvasManager.transform (canvas_of w)) /\
  Controllers.lastMouse (Controllers.ic w') = p.
Proof.
  intros Hdrag Hk w' last.
  destruct (onMouseMove_viewport p w) as [Ht Hl].
  rewrite Hdrag in Ht, Hl. unfold w'. rewrite Ht, Hl.
  unfold CanvasManager.screenToWorld.
  cbn [CanvasManager.vx CanvasManager.vy CanvasManager.vk].
  split; [| split; reflexivity].
  f_equal; unfold last; field; exact Hk.
Qed.

Lemma X18_drag_pans_witness :
  let w :=
    Controllers.onMouseDown 1 false (mkPoint 5 6)
      Controllers.new_WorkflowController in
  Controllers.lastMouse (Controllers.ic (Controllers.onMouseMove (mkPoint 8 9) w))
    = mkPoint 8 9.
Proof.
  refine (proj2 (proj2 (X18_drag_pans (mkPoint 8 9)
            (Controllers.onMouseDown 1 false (mkPoint 5 6)
               Controllers.new_WorkflowController) _ _))).
  - reflexivity.
  - cbn. lra.
Defined.

(** X19.  For a canvas and an image of positive sizes, the viewport set
    when the image is loaded has a positive zoom factor, shows the image
    within 80% of the canvas in width and in height, and puts the centre
    of the image on the centre of the canvas. *)
Theorem X19_loadImage_fits (cw ch iw ih : R) :
  0 < cw -> 0 < ch -> 0 < iw -> 0 < ih ->
  let t := CanvasManager.loadImage cw ch iw ih in
  0 < CanvasManager.vk t /\
  iw * CanvasManager.vk t <= 0.8 * cw /\
  ih * CanvasManager.vk t <= 0.8 * ch /\
  CanvasManager.worldToScreen t (iw / 2) (ih / 2) = mkPoint (cw / 2) (ch / 2).
Proof.
  intros Hcw Hch Hiw Hih t. unfold t, CanvasManager.loadImage,
    CanvasManager.worldToScreen.
  cbn [CanvasManager.vx CanvasManager.vy CanvasManager.vk].
  set (m := Rmin (cw / iw) (ch / ih)).
  assert (Hm1 : m <= cw / iw) by apply Rmin_l.
  assert (Hm2 : m <= ch / ih) by apply Rmin_r.
  assert (Hmpos : 0 < m).
  { unfold m. apply Rmin_glb_lt; apply Rdiv_lt_0_compat; assumption. }
  assert (H1 : iw * m <= cw).
  { apply Rmult_le_compat_l with (r := iw) in Hm1; [| lra].
    replace (iw * (cw / iw)) with cw in Hm1 by (field; lra). exact Hm1. }
  assert (H2 : ih * m <= ch).
  { apply Rmult_le_compat_l with (r := ih) in Hm2; [| lra].
    replace (ih * (ch / ih)) with ch in Hm2 by (field; lra). exact Hm2. }
  split; [nra |]. split; [nra |]. split; [nra |].
  f_equal; field.
Qed.

Lemma X19_loadImage_fits_witness :
  let t := CanvasManager.loadImage 800 600 400 400 in
  0 < CanvasManager.vk t /\
  CanvasManager.worldToScreen t (400 / 2) (400 / 2)
    = mkPoint (800 / 2) (600 / 2).
Proof.
  destruct (X19_loadImage_fits 800 600 400 400) as (Hk & _ & _ & Hc);
    try lra.
  split; [exact Hk | exact Hc].
Defined.

(** * Properties of the drawing workflow *)


Lemma Forall_removelast {A : Type} (P : A -> Prop) (l : list A) :
  Forall P l -> Forall P (removelast l).
Proof.
  intros H. rewrite removelast_firstn_len. apply Forall_take. exact H.
Qed.

(** Both invariants of a state. *)
Lemma good_intro (w : Controllers.WorkflowController) (s : Controllers.Step) :
  Controllers.steps !! Controllers.currentStepIndex w = Some s ->
  Controllers.mode (Controllers.ic w) = mode_of_step s ->
  Forall committed_ok (CanvasManager.leadingEdgeSegments (canvas_of w)) ->
  Forall committed_ok (CanvasManager.trailingEdgeSegments (canvas_of w)) ->
  step_consistent w /\ segments_ok w.
Proof.
  intros Hs Hm HLE HTE. split; [exists s; split; assumption | split; assumption].
Qed.

Ltac open_state w H :=
  let Hs := fresh "Hs" in
  let Hm := fresh "Hm" in
  let HLE := fresh "HLE" in
  let HTE := fresh "HTE" in
  let s := fresh "s" in
  destruct w as [[[t sym LE TE mac ap pv cur snap] m sm dr lm] idx];
  destruct H as [(s & Hs & Hm) [HLE HTE]];
  unfold canvas_of in HLE, HTE;
  cbn [Controllers.ic Controllers.cm Controllers.mode
       Controllers.currentStepIndex CanvasManager.leadingEdgeSegments
       CanvasManager.trailingEdgeSegments] in Hs, Hm, HLE, HTE;
  destruct idx as [| [| [| [| [| idx]]]]]; cbn in Hs; try discriminate;
  injection Hs as <-; cbn in Hm; subst m.

Ltac close_state :=
  first
    [ eapply good_intro;
      [ reflexivity | reflexivity
      | unfold canvas_of; cbn; try assumption
      | unfold canvas_of; cbn; try assumption ] ].

Lemma nextStep_good (w : Controllers.WorkflowController) :
  step_consistent w /\ segments_ok w ->
  step_consistent (Controllers.nextStep w)
  /\ segments_ok (Controllers.nextStep w).
Proof.
  intros H. open_state w H; cbn; close_state.
Qed.

Lemma prevStep_good (w : Controllers.WorkflowController) :
  step_consistent w /\ segments_ok w ->
  step_consistent (Controllers.prevStep w)
  /\ segments_ok (Controllers.prevStep w).
Proof.
  intros H. open_state w H; cbn; close_state.
Qed.

Lemma committed_ok_intro (subMode : ShapeType) (points : list Point) :
  (1 < length points)%nat ->
  committed_ok (MACCalculator.createShapeFromPoints subMode points).
Proof.
  intros H. exists subMode, points. split; [lia | reflexivity].
Qed.

Lemma onKeyDown_good (onInput : bool) (key : Controllers.Key)
    (metaKey ctrlKey : bool) (w : Controllers.WorkflowController) :
  step_consistent w /\ segments_ok w ->
  step_consistent (Controllers.onKeyDown onInput key metaKey ctrlKey w)
  /\ segments_ok (Controllers.onKeyDown onInput key metaKey ctrlKey w).
Proof.
  intros H. unfold Controllers.onKeyDown.
  destruct onInput; [exact H |].
  destruct key.
  - (* Space *)
    destruct (Controllers.startsWith_DRAW _ && bool_decide _) eqn:Hguard;
      [| exact H].
    apply andb_prop in Hguard. destruct Hguard as [_ Hlen].
    apply bool_decide_eq_true_1 in Hlen.
    open_state w H; cbn in Hlen |- *; close_state;
      apply Forall_app; (split; [assumption |]);
      repeat constructor; apply committed_ok_intro; exact Hlen.
  - (* Enter *)
    destruct (Controllers.startsWith_DRAW _); [| exact H].
    apply nextStep_good. exact H.
  - open_state w H; cbn; close_state.
  - open_state w H; cbn; close_state.
  - (* undo *)
    destruct (metaKey || ctrlKey); [| exact H].
    unfold Controllers.undo.
    open_state w H; cbn;
      repeat (first [ case_decide
                    | match goal with
                      | |- context [match ?x with Some _ => _ | None => _ end] =>
                          destruct x
                      end ]);
      cbn; close_state; apply Forall_removelast; assumption.
  - exact H.
Qed.

Lemma onMouseDown_good (button : nat) (altKey : bool) (pos : Point)
    (w : Controllers.WorkflowController) :
  step_consistent w /\ segments_ok w ->
  step_consistent (Controllers.onMouseDown button altKey pos w)
  /\ segments_ok (Controllers.onMouseDown button altKey pos w).
Proof.
  intros H. unfold Controllers.onMouseDown.
  destruct ((button =? 1)%nat || (button =? 0)%nat && altKey).
  - open_state w H; cbn; close_state.
  - destruct (button =? 0)%nat; [| exact H].
    open_state w H; cbn; repeat case_decide; cbn; try congruence;
      close_state.
Qed.

Lemma good_of_frame (w w' : Controllers.WorkflowController) :
  Controllers.mode (Controllers.ic w') = Controllers.mode (Controllers.ic w) ->
  Controllers.currentStepIndex w' = Controllers.currentStepIndex w ->
  CanvasManager.leadingEdgeSegments (canvas_of w')
    = CanvasManager.leadingEdgeSegments (canvas_of w) ->
  CanvasManager.trailingEdgeSegments (canvas_of w')
    = CanvasManager.trailingEdgeSegments (canvas_of w) ->
  step_consistent w /\ segments_ok w ->
  step_consistent w' /\ segments_ok w'.
Proof.
  intros Hm Hi HLE HTE [(s & Hs & Hmode) [H1 H2]].
  unfold step_consistent, segments_ok. rewrite Hm, Hi, HLE, HTE.
  split; [exists s; split; assumption | split; assumption].
Qed.

Lemma onMouseMove_frame (p : Point) (w : Controllers.WorkflowController) :
  let w' := Controllers.onMouseMove p w in
  Controllers.mode (Controllers.ic w') = Controllers.mode (Controllers.ic w) /\
  Controllers.currentStepIndex w' = Controllers.currentStepIndex w /\
  CanvasManager.leadingEdgeSegments (canvas_of w')
    = CanvasManager.leadingEdgeSegments (canvas_of w) /\
  CanvasManager.trailingEdgeSegments (canvas_of w')
    = CanvasManager.trailingEdgeSegments (canvas_of w) /\
  CanvasManager.activePoints (canvas_of w')
    = CanvasManager.activePoints (canvas_of w).
Proof.
  unfold Controllers.onMouseMove, canvas_of, Controllers.handleSnapping.
  destruct w as [[c m sm dragging lm] idx].
  destruct dragging; ui_proj; repeat case_decide; ui_proj;
    repeat split; reflexivity.
Qed.

Lemma onMouseMove_good (p : Point) (w : Controllers.WorkflowController) :
  step_consistent w /\ segments_ok w ->
  step_consistent (Controllers.onMouseMove p w)
  /\ segments_ok (Controllers.onMouseMove p w).
Proof.
  destruct (onMouseMove_frame p w) as (Hm & Hi & HLE & HTE & _).
  apply good_of_frame; assumption.
Qed.

Lemma onImageLoaded_good (cw ch iw ih : R)
    (w : Controllers.WorkflowController) :
  step_consistent w /\ segments_ok w ->
  step_consistent (Controllers.onImageLoaded cw ch iw ih w)
  /\ segments_ok (Controllers.onImageLoaded cw ch iw ih w).
Proof.
  intros H. unfold Controllers.onImageLoaded. apply nextStep_good.
  open_state w H; cbn; close_state.
Qed.

Lemma perform_good (fuel : nat) (val : R)
    (w w' : Controllers.WorkflowController) :
  Controllers.perform fuel val w = Some w' ->
  step_consistent w /\ segments_ok w ->
  step_consistent w' /\ segments_ok w'.
Proof.
  unfold Controllers.perform, Controllers.performCalculation.
  intros Hp H.
  destruct (decide (val > 0)); [| injection Hp as <-; exact H].
  destruct (CanvasManager.symmetryLine _) as [line |];
    [| injection Hp as <-; exact H].
  case_decide; [injection Hp as <-; exact H |].
  destruct (MACCalculator.calculate _ _ _ _ _) as [res | err |];
    [| injection Hp as <-; exact H | discriminate].
  injection Hp as <-.
  open_state w H; cbn; close_state.
Qed.

Lemma handle_good (e : Controllers.Event)
    (w : Controllers.WorkflowController) :
  step_consistent w /\ segments_ok w ->
  step_consistent (Controllers.handle e w)
  /\ segments_ok (Controllers.handle e w).
Proof.
  intros H. destruct e; cbn [Controllers.handle].
  - apply onMouseDown_good. exact H.
  - apply onMouseMove_good. exact H.
  - open_state w H; cbn; close_state.
  - open_state w H; cbn; close_state.
  - apply onKeyDown_good. exact H.
  - open_state w H; cbn; close_state.
  - unfold Controllers.onFileChange. destruct isImage; [| exact H].
    apply onImageLoaded_good. exact H.
  - unfold Controllers.onDrop. case_decide; [exact H |].
    destruct isImage; [| exact H].
    apply onImageLoaded_good. exact H.
  - destruct (Controllers.perform fuel val w) as [w' |] eqn:Hp; [| exact H].
    eapply perform_good; [exact Hp | exact H].
Qed.

Lemma new_good :
  step_consistent Controllers.new_WorkflowController
  /\ segments_ok Controllers.new_WorkflowController.
Proof.
  eapply good_intro; try reflexivity; constructor.
Qed.

Lemma run_good (events : list Controllers.Event)
    (w : Controllers.WorkflowController) :
  step_consistent w /\ segments_ok w ->
  step_consistent (Controllers.run events w)
  /\ segments_ok (Controllers.run events w).
Proof.
  revert w. induction events as [| e events IH]; intros w H.
  - exact H.
  - cbn [Controllers.run fold_left]. apply IH. apply handle_good. exact H.
Qed.

(** X20.  After any sequence of events from the start of the
    application, the step index names one of the five steps and the
    interaction mode is the one of that step: idle in the upload and
    result steps, and the symmetry, leading-edge or trailing-edge
    drawing mode in the step of that name. *)
Theorem X20_step_and_mode (events : list Controllers.Event) :
  let w := Controllers.run events Controllers.new_WorkflowController in
  (Controllers.currentStepIndex w < 5)%nat /\
  exists s : Controllers.Step,
    Controllers.currentStep w = Some s /\
    Controllers.mode (Controllers.ic w) = mode_of_step s.
Proof.
  intros w.
  destruct (run_good events _ new_good) as [(s & Hs & Hm) _]. fold w in Hs, Hm.
  split; [| exists s; split; assumption].
  apply lookup_lt_Some in Hs. exact Hs.
Qed.

(** ** Committed segments *)

Lemma committed_ok_points (s : Shape) :
  committed_ok s -> (2 <= length (shape_points s))%nat.
Proof.
  intros (subMode & points & Hlen & ->). destruct subMode; exact Hlen.
Qed.

Lemma committed_ok_samples (s : Shape) (tr : Point -> Point) :
  committed_ok s -> (2 <= length (sampleShape s tr))%nat.
Proof.
  intros (subMode & points & Hlen & ->). destruct subMode.
  - change (sampleShape (MACCalculator.createShapeFromPoints LINE points) tr)
      with (map tr points).
    rewrite length_map. exact Hlen.
  - rewrite (proj1 (spline_samples_blocks points tr Hlen)). lia.
Qed.

Lemma sampleSegments_enough (segments : list Shape) (tr : Point -> Point) :
  segments <> [] -> Forall committed_ok segments ->
  (2 <= length (sampleSegments segments tr))%nat.
Proof.
  intros Hne Hok. unfold sampleSegments.
  rewrite <- (Permutation_length (sort_by_y_perm _)).
  destruct segments as [| s rest]; [congruence |].
  inversion Hok as [| s' rest' Hs Hrest]; subst.
  cbn [flat_map]. rewrite length_app.
  pose proof (committed_ok_samples s tr Hs). lia.
Qed.

Lemma calculate_samples_enough (fuel : nat) (LE TE : list Point)
    (angle : R) (o : Point) (w : R) :
  (2 <= length LE)%nat -> (2 <= length TE)%nat ->
  calculate_samples fuel LE TE angle o w <> Throw InsufficientPoints.
Proof.
  intros HLE HTE. unfold calculate_samples.
  destruct (decide (length LE < 2 \/ length TE < 2)%nat) as [[H | H] | _];
    [lia | lia |].
  repeat match goal with
         | |- context [decide ?P] => destruct (decide P)
         | |- context [integrate ?f ?l ?t ?a ?b ?c] =>
             destruct (integrate f l t a b c)
         | |- context [locate ?f ?l ?t ?a ?b ?c ?m ?y] =>
             destruct (locate f l t a b c m y)
         end; discriminate.
Qed.

(** X21.  After any sequence of events from the start of the
    application, every committed segment of either edge has at least 2
    points; and when both edges have a segment, the calculation on them
    does not fail for insufficient points, whatever the symmetry line
    and the wingspan. *)
Theorem X21_committed_segments (events : list Controllers.Event)
    (fuel : nat) (line : SymmetryLine) (realWingspan : R) :
  let w := Controllers.run events Controllers.new_WorkflowController in
  let LE := CanvasManager.leadingEdgeSegments (canvas_of w) in
  let TE := CanvasManager.trailingEdgeSegments (canvas_of w) in
  (forall s : Shape, In s (LE ++ TE) -> (2 <= length (shape_points s))%nat) /\
  (LE <> [] -> TE <> [] ->
   calculate fuel LE TE line realWingspan <> Throw InsufficientPoints).
Proof.
  intros w LE TE.
  destruct (run_good events _ new_good) as [_ [HLE HTE]].
  fold w in HLE, HTE. fold LE in HLE. fold TE in HTE.
  split.
  - intros s Hin. apply committed_ok_points.
    apply in_app_or in Hin. rewrite Forall_forall in HLE, HTE.
    destruct Hin as [Hin | Hin]; [apply HLE | apply HTE];
      apply list_elem_of_In; exact Hin.
  - intros HLEne HTEne. rewrite calculate_eq.
    apply calculate_samples_enough; apply sampleSegments_enough; assumption.
Qed.

Lemma X21_committed_segments_witness :
  let events :=
    [Controllers.FileChosen true 800 600 400 400;
     Controllers.MouseDown 0 false (mkPoint 0 0);
     Controllers.MouseDown 0 false (mkPoint 10 0);
     Controllers.ToolChange LINE;
     Controllers.MouseDown 0 false (mkPoint 0 0);
     Controllers.MouseDown 0 false (mkPoint 0 10);
     Controllers.KeyDown false Controllers.KeySpace false false;
     Controllers.KeyDown false Controllers.KeyEnter false false;
     Controllers.ToolChange LINE;
     Controllers.MouseDown 0 false (mkPoint 2 0);
     Controllers.MouseDown 0 false (mkPoint 1 10);
     Controllers.KeyDown false Controllers.KeySpace false false] in
  let w := Controllers.run events Controllers.new_WorkflowController in
  calculate 1002 (CanvasManager.leadingEdgeSegments (canvas_of w))
    (CanvasManager.trailingEdgeSegments (canvas_of w))
    (mkSymmetryLine (mkPoint 0 0) (mkPoint 1 0)) 20
  <> Throw InsufficientPoints.
Proof.
  cbv zeta.
  refine (proj2 (X21_committed_segments _ 1002
                   (mkSymmetryLine (mkPoint 0 0) (mkPoint 1 0)) 20) _ _).
  - discriminate.
  - discriminate.
Defined.

(** ** Undo *)



(** ** Drawing the symmetry line *)



(** ** Snapping *)






(** ** The MAC line on the drawing *)

Lemma transform_horizontal (p : Point) :
  transform (mkSymmetryLine (mkPoint 0 0) (mkPoint 1 0)) p = p.
Proof.
  unfold transform. cbn [p1 p2 px py].
  assert (Ha : atan2 (0 - 0) (1 - 0) = 0).
  { unfold atan2. destruct (decide (0 < 1 - 0)) as [_ | Hn]; [| lra].
    replace ((0 - 0) / (1 - 0)) with 0 by (field; lra). apply atan_0. }
  rewrite Ha, Ropp_0, cos_0, sin_0. destruct p as [x y]. cbn [px py].
  f_equal; ring.
Qed.

Lemma taper_calculate :
  exists r : MACResult,
    calculate 1002 [createShapeFromPoints LINE taper_LE]
      [createShapeFromPoints LINE taper_TE]
      (mkSymmetryLine (mkPoint 0 0) (mkPoint 1 0)) 20 = Return r.
Proof.
  rewrite calculate_eq.
  assert (HLE : sampleSegments [createShapeFromPoints LINE taper_LE]
                  (transform (mkSymmetryLine (mkPoint 0 0) (mkPoint 1 0)))
                = taper_LE).
  { unfold sampleSegments, taper_LE. cbn [flat_map].
    change (sampleShape (createShapeFromPoints LINE ?l) ?tr) with (map tr l).
    cbn [map app]. rewrite !transform_horizontal.
    cbn [sort_by_y fold_right insert_by_y py].
    destruct (decide (0 - 10 <= 0)); [reflexivity | lra]. }
  assert (HTE : sampleSegments [createShapeFromPoints LINE taper_TE]
                  (transform (mkSymmetryLine (mkPoint 0 0) (mkPoint 1 0)))
                = taper_TE).
  { unfold sampleSegments, taper_TE. cbn [flat_map].
    change (sampleShape (createShapeFromPoints LINE ?l) ?tr) with (map tr l).
    cbn [map app]. rewrite !transform_horizontal.
    cbn [sort_by_y fold_right insert_by_y py].
    destruct (decide (0 - 10 <= 0)); [reflexivity | lra]. }
  rewrite HLE, HTE.
  destruct taper_bounds as [Hmin Hmax].
  destruct (calculate_samples_returns 1002 taper_LE taper_TE
              (atan2 (py (p2 (mkSymmetryLine (mkPoint 0 0) (mkPoint 1 0)))
                      - py (p1 (mkSymmetryLine (mkPoint 0 0) (mkPoint 1 0))))
                     (px (p2 (mkSymmetryLine (mkPoint 0 0) (mkPoint 1 0)))
                      - px (p1 (mkSymmetryLine (mkPoint 0 0) (mkPoint 1 0)))))
              (p1 (mkSymmetryLine (mkPoint 0 0) (mkPoint 1 0))) 20)
    as (best & _ & _ & Hret).
  - cbn. lia.
  - cbn. lia.
  - rewrite Hmin, Hmax. lra.
  - lia.
  - rewrite Hmin, Hmax. exact taper_area_nonzero.
  - eexists. exact Hret.
Qed.

(** X25.  When the symmetry line is drawn, both edges have a segment
    and the calculation returns a result, [performCalculation] stores a
    MAC line and changes nothing else of the drawing.  In the aligned
    frame that line starts on the leading edge at the reported span
    position and runs chordwise for [MAC_pixels]; on the drawing its
    length is [MAC_pixels]. *)
Theorem X25_mac_line (fuel : nat) (realWingspan : R)
    (w : Controllers.WorkflowController) (line : SymmetryLine)
    (r : MACResult) :
  CanvasManager.symmetryLine (canvas_of w) = Some line ->
  CanvasManager.leadingEdgeSegments (canvas_of w) <> [] ->
  CanvasManager.trailingEdgeSegments (canvas_of w) <> [] ->
  calculate fuel (CanvasManager.leadingEdgeSegments (canvas_of w))
    (CanvasManager.trailingEdgeSegments (canvas_of w)) line realWingspan
    = Return r ->
  exists (w' : Controllers.WorkflowController) (L : SymmetryLine),
    Controllers.performCalculation fuel realWingspan w = Some w' /\
    w' = Controllers.set_ic
           (Controllers.set_cm
              (CanvasManager.set_macLine (Some L) (canvas_of w))
              (Controllers.ic w)) w /\
    transform line (p1 L) = mkPoint (X_le_mac_pixels r) (Y_mac_pixels r) /\
    transform line (p2 L)
      = mkPoint (X_le_mac_pixels r + MAC_pixels r) (Y_mac_pixels r) /\
    dist2 (p1 L) (p2 L) = MAC_pixels r * MAC_pixels r.
Proof.
  intros Hsym HLE HTE Hcalc.
  destruct (calculate_frame _ _ _ _ _ _ Hcalc) as [Hangle Horigin].
  unfold Controllers.performCalculation. unfold canvas_of in *.
  rewrite Hsym.
  case_decide as Hempty.
  { exfalso. destruct Hempty as [H0 | H0];
      [apply HLE | apply HTE]; apply length_zero_iff_nil; exact H0. }
  rewrite Hcalc.
  eexists. eexists. split; [reflexivity |]. split; [reflexivity |].
  cbn [p1 p2].
  pose proof (transform_invRotate_exact line r (X_le_mac_pixels r)
                (Y_mac_pixels r) Hangle Horigin) as H1.
  pose proof (transform_invRotate_exact line r
                (X_le_mac_pixels r + MAC_pixels r)
                (Y_mac_pixels r) Hangle Horigin) as H2.
  split; [exact H1 |]. split; [exact H2 |].
  rewrite <- (proj1 (transform_dist2 line _ _)), H1, H2.
  unfold dist2. cbn [px py]. ring.
Qed.

Lemma X25_mac_line_witness :
  let line := mkSymmetryLine (mkPoint 0 0) (mkPoint 1 0) in
  let w :=
    Controllers.mkWorkflowController
      (Controllers.mkInteractionController
         (CanvasManager.mkCanvas (CanvasManager.mkViewport 0 0 1)
            (Some line) [createShapeFromPoints LINE taper_LE]
            [createShapeFromPoints LINE taper_TE] None [] None
            (mkPoint 0 0) None)
         Controllers.IDLE SPLINE false (mkPoint 0 0)) 4 in
  exists (w' : Controllers.WorkflowController) (L : SymmetryLine),
    Controllers.performCalculation 1002 20 w = Some w' /\
    CanvasManager.macLine (canvas_of w') = Some L.
Proof.
  cbv zeta. destruct taper_calculate as [r Hr].
  destruct (X25_mac_line 1002 20
              (Controllers.mkWorkflowController
                 (Controllers.mkInteractionController
                    (CanvasManager.mkCanvas (CanvasManager.mkViewport 0 0 1)
                       (Some (mkSymmetryLine (mkPoint 0 0) (mkPoint 1 0)))
                       [createShapeFromPoints LINE taper_LE]
                       [createShapeFromPoints LINE taper_TE] None [] None
                       (mkPoint 0 0) None)
                    Controllers.IDLE SPLINE false (mkPoint 0 0)) 4)
              (mkSymmetryLine (mkPoint 0 0) (mkPoint 1 0)) r
              eq_refl ltac:(discriminate) ltac:(discriminate) Hr)
    as (w' & L & Hp & Hw & _).
  exists w', L. split; [exact Hp |]. rewrite Hw. reflexivity.
Defined.
